(** * RFM scoring of the e-commerce dashboard

    A shallow embedding of the computational core of
    [ecommerce_dashboard.py]: the KPI block, the per-customer aggregation
    ([groupby('Customer_ID').agg(...)]), the three rank columns
    ([rank(method='first')]), the quintile scores ([pd.qcut(..., 5, labels)]),
    the composite code and the segment rule [rfm_segment].

    Data frames are lists of rows in frame order.  Identifiers are integers
    (group keys sort numerically), timestamps are integer nanoseconds since
    the epoch, as pandas stores them.  [Amount] is a column of whole numbers,
    which [pd.to_numeric] holds with dtype int64: sums of amounts are taken
    in 64-bit two's-complement arithmetic, wrap-around included, and the
    average order value is a binary64 quotient.  A column of decimal amounts
    (dtype float64) is outside this embedding.  Quantile edges are kept
    exact, as numerators over the number of quantiles, so comparing a rank
    with an edge is integer arithmetic.  The pandas operations are embedded
    with the behaviour pandas documents for them; each definition says which
    call it stands for. *)

From Stdlib Require Import ZArith QArith Qcanon Lia String.
From Stdlib Require OrderedTypeEx SpecFloat.
From stdpp Require Import base decidable option list sorting gmap numbers pretty.

Local Open Scope Z_scope.

(** ** Exceptions and the error monad *)

(** The Python exceptions the script can run into. *)
Inductive exn : Type :=
  | BinEdgesNotUnique   (* ValueError raised by [pd.qcut] *)
  | CannotConvertNaN.   (* ValueError raised by [int(nan)] *)

Inductive result (A : Type) : Type :=
  | Ok (a : A)
  | Raise (e : exn).
Arguments Ok {A} a.
Arguments Raise {A} e.

Definition bind {A B} (m : result A) (k : A → result B) : result B :=
  match m with
  | Ok a => k a
  | Raise e => Raise e
  end.

Notation "'let*' x ':=' m 'in' k" := (bind m (λ x, k))
  (at level 10, x name, m at level 100, k at level 200).

Fixpoint map_result {A B} (f : A → result B) (l : list A) : result (list B) :=
  match l with
  | [] => Ok []
  | a :: l' => let* b := f a in let* bs := map_result f l' in Ok (b :: bs)
  end.

(** ** Data model *)

(** One line of [df_filtered].  Only the four columns the core reads are
    kept; after [dropna] none of them is missing.  [Amount] is an int64
    cell. *)
Record Row : Type := {
  Invoice_Number : Z;
  Invoice_Date : Z;
  Customer_ID : Z;
  Amount : Z
}.

(** One line of [rfm] after [reset_index] and the renaming of the columns. *)
Record RfmRow : Type := {
  rfm_Customer_ID : Z;
  Recency : Z;
  Frequency : Z;
  Monetary : Z
}.

(** One line of [rfm] as [rfm_segment] receives it.  A score is [None] where
    pandas would hold a missing value. *)
Record ScoredRow : Type := {
  aggregate : RfmRow;
  R_rank : nat;
  F_rank : nat;
  M_rank : nat;
  R_Score : option Z;
  F_Score : option Z;
  M_Score : option Z;
  RFM_Score : string
}.

(** One line of the finished [rfm]. *)
Record SegmentedRow : Type := {
  scored : ScoredRow;
  Segment : string
}.

(** ** Series reductions *)

(** The value an int64 cell holds after an addition whose exact result is
    [z]: numpy does not check for overflow, the result wraps around modulo
    [2^64] into the range from [-2^63] to [2^63 - 1]. *)
Definition wrap_int64 (z : Z) : Z := (z + 2 ^ 63) `mod` 2 ^ 64 - 2 ^ 63.

(** [z] fits in an int64 cell. *)
Definition int64 (z : Z) : Prop := - 2 ^ 63 ≤ z < 2 ^ 63.

(** [Series.sum()] on an int64 column, also as the ['sum'] of a group: zero
    on an empty series, every addition wrapping around. *)
Definition series_sum (x : list Z) : Z := foldr (λ v s, wrap_int64 (v + s)) 0 x.

(** [Series.nunique()]: the number of distinct values. *)
Definition nunique (x : list Z) : Z := Z.of_nat (size (list_to_set x : gset Z)).

(** The largest value of the series [v :: x]. *)
Definition max_from (v : Z) (x : list Z) : Z := foldl Z.max v x.

(** [Series.max()]: [None] stands for the missing value (NaT) pandas
    returns on an empty series. *)
Definition series_max (x : list Z) : option Z :=
  match x with
  | [] => None
  | v :: x' => Some (max_from v x')
  end.

(** ** KPI block *)

Definition total_sales (df_filtered : list Row) : Z :=
  series_sum (Amount <$> df_filtered).

Definition total_orders (df_filtered : list Row) : Z :=
  nunique (Invoice_Number <$> df_filtered).

Definition total_customers (df_filtered : list Row) : Z :=
  nunique (Customer_ID <$> df_filtered).

(** The binary64 float nearest to an integer (ties to even): what numpy
    turns an int64 into before a true division. *)
Definition binary64_of_Z (z : Z) : SpecFloat.spec_float :=
  SpecFloat.binary_normalize 53 1024 z 0 false.

(** The rational number a finite binary64 float stands for. *)
Definition binary64_value (f : SpecFloat.spec_float) : Qc :=
  match f with
  | SpecFloat.S754_finite s m e =>
      Q2Qc ((if s then - 1 else 1) * inject_Z (Z.pos m) * 2 ^ e)%Q
  | _ => 0%Qc
  end.

(** [total_sales / total_orders if total_orders > 0 else 0].  The true
    division of the int64 total by the count is a binary64 division of the
    two numbers converted to floats; its result is finite, the divisor being
    positive, and is given here as the rational it stands for. *)
Definition avg_order_value (df_filtered : list Row) : Qc :=
  if decide (total_orders df_filtered > 0)
  then binary64_value
         (SpecFloat.SFdiv 53 1024 (binary64_of_Z (total_sales df_filtered))
            (binary64_of_Z (total_orders df_filtered)))
  else 0%Qc.

(** ** Aggregation *)

(** Nanoseconds in [pd.Timedelta(days=1)]. *)
Definition one_day : Z := 86400000000000.

(** [Timedelta.days]: whole days, rounded towards minus infinity. *)
Definition days (delta : Z) : Z := delta / one_day.

(** [df_filtered['Invoice_Date'].max() + pd.Timedelta(days=1)]; NaT plus a
    day is NaT. *)
Definition snapshot_date (df_filtered : list Row) : option Z :=
  m ← series_max (Invoice_Date <$> df_filtered); Some (m + one_day).

(** A group of [groupby]: its key and its rows, of which there is at least
    one, in frame order. *)
Record Group : Type := {
  key : Z;
  first_row : Row;
  more_rows : list Row
}.

Definition rows (g : Group) : list Row := first_row g :: more_rows g.

(** Puts a row in front of the group of its customer, opening the group at
    its place in key order when the customer is new. *)
Fixpoint add_row (r : Row) (gs : list Group) : list Group :=
  match gs with
  | [] => [ {| key := Customer_ID r; first_row := r; more_rows := [] |} ]
  | g :: gs' =>
      if decide (Customer_ID r < key g)
      then {| key := Customer_ID r; first_row := r; more_rows := [] |} :: g :: gs'
      else if decide (Customer_ID r = key g)
      then {| key := key g; first_row := r; more_rows := rows g |} :: gs'
      else g :: add_row r gs'
  end.

(** [df_filtered.groupby('Customer_ID')]: groups sorted by key (the default
    [sort=True]), the rows of a group in frame order. *)
Definition groupby (df_filtered : list Row) : list Group :=
  foldr add_row [] df_filtered.

(** The three aggregations of [.agg({...})] on one group, [snapshot] being
    the value of [snapshot_date]:
    [lambda x: (snapshot_date - x.max()).days], ['nunique'] and ['sum']. *)
Definition agg (snapshot : Z) (g : Group) : RfmRow :=
  {| rfm_Customer_ID := key g;
     Recency := days (snapshot - max_from (Invoice_Date (first_row g))
                                          (Invoice_Date <$> more_rows g));
     Frequency := nunique (Invoice_Number <$> rows g);
     Monetary := series_sum (Amount <$> rows g) |}.

(** The frame [rfm] before ranking.  The snapshot is NaT only when
    [df_filtered] has no row, and then [groupby] has no group to aggregate:
    the table is empty. *)
Definition rfm_table (df_filtered : list Row) : list RfmRow :=
  match snapshot_date df_filtered with
  | Some snapshot => agg snapshot <$> groupby df_filtered
  | None => []
  end.

(** ** Ranking *)

(** The rank [Series.rank(method='first', ascending=True)] gives to the
    value [v] found at position [i] of the series [x]: one more than the
    number of values below [v] plus the number of values equal to [v] that
    stand before position [i] (ties are ranked in the order they appear). *)
Definition rank_at (x : list Z) (i : nat) (v : Z) : nat :=
  S (length (filter (λ w, w < v) x) + length (filter (λ w, w = v) (take i x))).

Definition rank_first (x : list Z) : list nat := imap (rank_at x) x.

(** ** Quantile scores *)

(** [q] times the quantile of order [k/q] of an ascending series, with the
    linear interpolation of [Series.quantile]: the fractional position
    [(n-1) * k/q] lies between two neighbours of the series.  [None] is the
    NaN of an empty series. *)
Definition quantile_times (q : nat) (sorted : list Z) (k : nat) : option Z :=
  let pos := ((length sorted - 1) * k)%nat in
  let lo := (pos `div` q)%nat in
  let frac := (pos `mod` q)%nat in
  a ← sorted !! lo;
  let b := default a (sorted !! S lo) in
  Some (Z.of_nat q * a + (b - a) * Z.of_nat frac).

(** The [q + 1] bin edges of [pd.qcut(x, q)], each multiplied by [q]. *)
Definition qcut_bins (q : nat) (x : list Z) : list (option Z) :=
  quantile_times q (merge_sort Z.le x) <$> seq 0 (S q).

(** An edge lies below [t]; a NaN edge compares false. *)
Definition edge_below (t : Z) (b : option Z) : bool :=
  match b with
  | Some e => bool_decide (e < t)
  | None => false
  end.

(** The bin of a value among the edges, counted from 1, as [pd.cut] finds it
    with [right=True] and [include_lowest=True]: [searchsorted(side='left')]
    counts the edges below the value, and the lowest edge itself is put in
    the first bin. *)
Definition bin_of (q : nat) (bins : list (option Z)) (v : Z) : nat :=
  if decide (head bins = Some (Some (Z.of_nat q * v))) then 1%nat
  else length (filter (λ b, edge_below (Z.of_nat q * v) b) bins).

(** The label of a value: missing when the value lies outside the edges. *)
Definition label_of (q : nat) (labels : list Z) (bins : list (option Z)) (v : Z)
  : option Z :=
  let ids := bin_of q bins v in
  if decide (ids = 0%nat ∨ ids = length bins) then None
  else labels !! (ids - 1)%nat.

(** [pd.qcut(x, q, labels=labels)] with the default [duplicates='raise']:
    repeated edges (NaN edges of an empty series included) raise
    [ValueError: Bin edges must be unique], unless there are just two
    edges. *)
Definition qcut (x : list Z) (q : nat) (labels : list Z) : result (list (option Z)) :=
  let bins := qcut_bins q x in
  if decide (NoDup bins ∨ length bins = 2%nat) then Ok (label_of q labels bins <$> x)
  else Raise BinEdgesNotUnique.

(** ** Composite code and segments *)

(** [astype(str)] on a score: the decimal digits, or ["nan"] for a missing
    value. *)
Definition astype_str (score : option Z) : string :=
  match score with
  | Some v => pretty v
  | None => "nan"
  end.

(** Python's [int(...)] on a score: [int(nan)] raises. *)
Definition int (score : option Z) : result Z :=
  match score with
  | Some v => Ok v
  | None => Raise CannotConvertNaN
  end.

(** [a and b]: [b] is looked at only when [a] holds. *)
Definition and_then (a b : result bool) : result bool :=
  let* x := a in if x then b else Ok false.

Definition at_least (score : option Z) (n : Z) : result bool :=
  let* v := int score in Ok (bool_decide (v >= n)).

Definition at_most (score : option Z) (n : Z) : result bool :=
  let* v := int score in Ok (bool_decide (v <= n)).

Definition rfm_segment (row : ScoredRow) : result string :=
  let* best := and_then (at_least (R_Score row) 4)
                 (and_then (at_least (F_Score row) 4) (at_least (M_Score row) 4)) in
  if best then Ok "Best Customers"%string else
  let* new := and_then (at_least (R_Score row) 4) (at_most (F_Score row) 2) in
  if new then Ok "New Customers"%string else
  let* loyal := and_then (at_most (R_Score row) 2) (at_least (F_Score row) 4) in
  if loyal then Ok "Loyal Customers"%string else
  Ok "Others"%string.

(** ** The scoring pass *)

(** Puts the columns of [rfm] side by side, line by line. *)
Fixpoint with_columns (rfm : list RfmRow) (r_rank f_rank m_rank : list nat)
    (r_score f_score m_score : list (option Z)) (rfm_score : list string)
  : list ScoredRow :=
  match rfm, r_rank, f_rank, m_rank, r_score, f_score, m_score, rfm_score with
  | a :: rfm', rr :: r_rank', fr :: f_rank', mr :: m_rank',
    rs :: r_score', fs :: f_score', ms :: m_score', c :: rfm_score' =>
      {| aggregate := a; R_rank := rr; F_rank := fr; M_rank := mr;
         R_Score := rs; F_Score := fs; M_Score := ms; RFM_Score := c |}
      :: with_columns rfm' r_rank' f_rank' m_rank' r_score' f_score' m_score' rfm_score'
  | _, _, _, _, _, _, _, _ => []
  end.

(** String concatenation of three columns, line by line. *)
Fixpoint concat_columns (a b c : list string) : list string :=
  match a, b, c with
  | x :: a', y :: b', z :: c' => (x ++ y ++ z)%string :: concat_columns a' b' c'
  | _, _, _ => []
  end.

(** [rfm.apply(rfm_segment, axis=1)] stored in the column [Segment]. *)
Definition with_segment (row : ScoredRow) : result SegmentedRow :=
  let* s := rfm_segment row in Ok {| scored := row; Segment := s |}.

(** Everything the script does to [rfm] after the aggregation: the rank
    columns, the score columns, [RFM_Score] and [Segment]. *)
Definition rfm_scores (rfm : list RfmRow) : result (list SegmentedRow) :=
  let r_rank := rank_first (Recency <$> rfm) in
  let f_rank := rank_first (Frequency <$> rfm) in
  let m_rank := rank_first (Monetary <$> rfm) in
  let* r_score := qcut (Z.of_nat <$> r_rank) 5 [5; 4; 3; 2; 1] in
  let* f_score := qcut (Z.of_nat <$> f_rank) 5 [1; 2; 3; 4; 5] in
  let* m_score := qcut (Z.of_nat <$> m_rank) 5 [1; 2; 3; 4; 5] in
  let rfm_score := concat_columns (astype_str <$> r_score) (astype_str <$> f_score)
                     (astype_str <$> m_score) in
  map_result with_segment
    (with_columns rfm r_rank f_rank m_rank r_score f_score m_score rfm_score).

(** The RFM section of the script, from [df_filtered] to the finished
    [rfm]. *)
Definition rfm_analysis (df_filtered : list Row) : result (list SegmentedRow) :=
  rfm_scores (rfm_table df_filtered).

(** * The other sections of the script *)

(** ** Sidebar filters *)

(** One line of [df] with the columns the filters and the bar charts read
    besides the four core ones.  A missing country or product is [None]:
    [dropna] does not look at these two columns. *)
Record SalesRow : Type := {
  core : Row;
  Country : option string;
  Product : option string
}.

(** The test of the boolean mask that defines [df_filtered].  [has_product]
    says whether [df] has a [Product] column (without it that part of the
    mask is [True]); [date_range] holds the two bounds after
    [pd.to_datetime].  [isin] is list membership, a missing value matching a
    missing value. *)
Definition in_selection (has_product : bool) (countries products : list (option string))
    (date_range : Z * Z) (r : SalesRow) : Prop :=
  Country r ∈ countries
  ∧ (if has_product then Product r ∈ products else True)
  ∧ date_range.1 ≤ Invoice_Date (core r)
  ∧ Invoice_Date (core r) ≤ date_range.2.

#[global] Instance in_selection_dec has_product countries products date_range r :
  Decision (in_selection has_product countries products date_range r).
Proof. unfold in_selection. destruct has_product; apply _. Defined.

(** [df[mask]]: the rows that pass, in frame order. *)
Definition apply_filters (has_product : bool) (countries products : list (option string))
    (date_range : Z * Z) (df : list SalesRow) : list SalesRow :=
  filter (in_selection has_product countries products date_range) df.

(** [Series.unique()]: the distinct values in order of first appearance. *)
Fixpoint unique_from {A} `{EqDecision A} (seen x : list A) : list A :=
  match x with
  | [] => []
  | v :: x' =>
      if decide (v ∈ seen) then unique_from seen x'
      else v :: unique_from (v :: seen) x'
  end.

Definition unique {A} `{EqDecision A} (x : list A) : list A := unique_from [] x.

(** ** Daily sales trend *)

(** The smallest value of the series [v :: x]. *)
Definition min_from (v : Z) (x : list Z) : Z := foldl Z.min v x.

(** [Series.min()], missing on an empty series. *)
Definition series_min (x : list Z) : option Z :=
  match x with
  | [] => None
  | v :: x' => Some (min_from v x')
  end.

(** The number of the calendar day a timestamp falls in. *)
Definition day_of (t : Z) : Z := t `div` one_day.

(** [groupby(pd.Grouper(key='Invoice_Date', freq='D'))['Amount'].sum()
    .reset_index()]: one line per calendar day from the day of the earliest
    row to the day of the latest, labelled with the midnight that opens the
    day, with the amounts of the day added up (0 for a day without rows);
    no line for an empty frame. *)
Definition sales_time (df_filtered : list Row) : list (Z * Z) :=
  match series_min (Invoice_Date <$> df_filtered),
        series_max (Invoice_Date <$> df_filtered) with
  | Some first, Some last =>
      (λ d, (d * one_day,
             series_sum (Amount <$> filter (λ r, day_of (Invoice_Date r) = d) df_filtered)))
        <$> seqZ (day_of first) (day_of last - day_of first + 1)
  | _, _ => []
  end.

(** ** Revenue rankings *)

(** Files the amount [a] under the value [k]: in front of the amounts
    already filed there, or in a new group opened at its place in key order
    (the order of Python strings, byte by byte) when the value is new. *)
Fixpoint add_amount (k : string) (a : Z) (groups : list (string * list Z))
  : list (string * list Z) :=
  match groups with
  | [] => [(k, [a])]
  | g :: groups' =>
      match (k ?= g.1)%string with
      | Lt => (k, [a]) :: g :: groups'
      | Eq => (g.1, a :: g.2) :: groups'
      | Gt => g :: add_amount k a groups'
      end
  end.

(** [groupby(column)['Amount']]: the groups sorted by key, the amounts of a
    group in frame order; rows where the column is missing belong to no
    group. *)
Definition groupby_column (column : SalesRow → option string) (df : list SalesRow)
  : list (string * list Z) :=
  foldr (λ r groups,
           match column r with
           | Some k => add_amount k (Amount (core r)) groups
           | None => groups
           end) [] df.

(** [groupby(column)['Amount'].sum()]: one total per group, in key order. *)
Definition group_totals (column : SalesRow → option string) (df : list SalesRow)
  : list (string * Z) :=
  (λ g, (g.1, series_sum g.2)) <$> groupby_column column df.

(** The order [sort_values(ascending=False)] asks for. *)
Definition larger_first (a b : string * Z) : Prop := b.2 ≤ a.2.

(** Puts a line into a list that is in falling order of totals: after the
    lines with a larger total and before those with an equal or smaller
    one. *)
Fixpoint put_in_order (a : string * Z) (sorted : list (string * Z))
  : list (string * Z) :=
  match sorted with
  | [] => [a]
  | b :: sorted' =>
      if decide (b.2 ≤ a.2) then a :: b :: sorted' else b :: put_in_order a sorted'
  end.

(** [.sort_values(ascending=False)]: falling totals, equal totals staying
    in the order of the groups, as pandas lists them.  pandas hands the
    order of equal totals to numpy's sort: the properties of the rankings
    proved below hold whatever that order is. *)
Definition sort_values (totals : list (string * Z)) : list (string * Z) :=
  foldr put_in_order [] totals.

(** [.sort_values(ascending=False).head(10).reset_index()] on the totals. *)
Definition top10 (column : SalesRow → option string) (df : list SalesRow)
  : list (string * Z) :=
  take 10 (sort_values (group_totals column df)).

Definition country_sales (df_filtered : list SalesRow) : list (string * Z) :=
  top10 Country df_filtered.

(** The product chart is drawn only when the frame has a [Product]
    column. *)
Definition top_products (has_product : bool) (df_filtered : list SalesRow)
  : option (list (string * Z)) :=
  if has_product then Some (top10 Product df_filtered) else None.

(** ** Table preview *)

(** [rfm[['Customer_ID', 'RFM_Score', 'Segment']].head(20)]. *)
Definition rfm_preview (rfm : list SegmentedRow) : list (Z * string * string) :=
  (λ line, (rfm_Customer_ID (aggregate (scored line)), RFM_Score (scored line),
            Segment line)) <$> take 20 rfm.

(** ** Revenue of one group *)

(** [k] comes before [k'] in key order. *)
Definition key_before (k k' : string) : Prop := (k ?= k')%string = Lt.

(** The amounts filed under the value [k] in a list of groups. *)
Fixpoint amounts_at (k : string) (groups : list (string * list Z)) : list Z :=
  match groups with
  | [] => []
  | g :: groups' => (if decide (g.1 = k) then g.2 else []) ++ amounts_at k groups'
  end.

(** The amounts of the rows whose [column] holds [k], added up. *)
Definition revenue_of (column : SalesRow → option string) (k : string)
    (df : list SalesRow) : Z :=
  series_sum ((Amount ∘ core) <$> filter (λ r, column r = Some k) df).

(** ** Sample frames *)

Definition sale (n d c a : Z) (country product : string) : SalesRow :=
  {| core := {| Invoice_Number := n; Invoice_Date := d; Customer_ID := c; Amount := a |};
     Country := Some country; Product := Some product |}.

(** Six rows over four days, three countries and three products; the
    third day has no row. *)
Definition sample_sales : list SalesRow :=
  [ sale 1 (10 * one_day + 3600) 7 50 "UK" "Mug";
    sale 1 (10 * one_day + 3600) 7 20 "UK" "Pen";
    sale 2 (11 * one_day) 8 70 "France" "Mug";
    sale 3 (11 * one_day + 5) 9 (-20) "UK" "Pen";
    sale 4 (13 * one_day + 99) 8 30 "Spain" "Bag";
    sale 5 (13 * one_day + 100) 7 10 "France" "Bag" ].

(** Five countries, four of them with the same revenue. *)
Definition tied_countries : list SalesRow :=
  [ sale 1 one_day 1 30 "UK" "Mug"; sale 2 one_day 2 30 "France" "Mug";
    sale 3 one_day 3 50 "Italy" "Mug"; sale 4 one_day 4 30 "AT" "Mug";
    sale 5 one_day 5 20 "Spain" "Mug"; sale 6 one_day 6 10 "Spain" "Mug" ].

(** Seven orders with a total of 29. *)
Definition seven_orders : list Row :=
  (λ n, {| Invoice_Number := n; Invoice_Date := 100; Customer_ID := n;
           Amount := if decide (n = 7) then 5 else 4 |}) <$> [1; 2; 3; 4; 5; 6; 7].


(** Twelve rows, one per country, with amounts 10, 20, ..., 120. *)
Definition twelve_countries : list SalesRow :=
  [ sale 1 one_day 1 10 "AT" "Mug"; sale 2 one_day 2 20 "BE" "Mug";
    sale 3 one_day 3 30 "CH" "Mug"; sale 4 one_day 4 40 "DE" "Mug";
    sale 5 one_day 5 50 "ES" "Mug"; sale 6 one_day 6 60 "FR" "Mug";
    sale 7 one_day 7 70 "GR" "Mug"; sale 8 one_day 8 80 "HU" "Mug";
    sale 9 one_day 9 90 "IE" "Mug"; sale 10 one_day 10 100 "JP" "Mug";
    sale 11 one_day 11 110 "KR" "Mug"; sale 12 one_day 12 120 "LU" "Mug" ].

(** The finished [rfm] of [sample_sales]. *)
Definition sample_scored : list SegmentedRow :=
  Eval vm_compute in
    match rfm_analysis (core <$> sample_sales) with
    | Ok out => out
    | Raise _ => []
    end.

(** * Specification vocabulary *)

(** ** Grouping and aggregation *)

(** The rows filed under the key [c] in a list of groups. *)
Fixpoint rows_for (c : Z) (gs : list Group) : list Row :=
  match gs with
  | [] => []
  | g :: gs' => (if decide (key g = c) then rows g else []) ++ rows_for c gs'
  end.

(** The records of one customer, in frame order. *)
Definition records_of (c : Z) (df : list Row) : list Row :=
  filter (λ r, Customer_ID r = c) df.

(** [t] is the latest timestamp found in [rs]. *)
Definition latest_of (rs : list Row) (t : Z) : Prop :=
  (∃ r, r ∈ rs ∧ Invoice_Date r = t) ∧ ∀ r, r ∈ rs → Invoice_Date r ≤ t.

(** [n] is the number of whole days in the time span [delta]. *)
Definition whole_days (delta n : Z) : Prop :=
  n * one_day ≤ delta < (n + 1) * one_day.

(** [n] is the number of distinct order ids found in [rs]. *)
Definition distinct_orders (rs : list Row) (n : Z) : Prop :=
  ∃ ids : list Z,
    NoDup ids ∧ (∀ o, o ∈ ids ↔ ∃ r, r ∈ rs ∧ Invoice_Number r = o)
    ∧ n = Z.of_nat (length ids).

(** The amounts of the records of customer [c], added up along the frame. *)
Fixpoint spent_by (c : Z) (df : list Row) : Z :=
  match df with
  | [] => 0
  | r :: df' => (if decide (Customer_ID r = c) then Amount r else 0) + spent_by c df'
  end.

(** What the aggregation owes for a frame: one line per distinct customer,
    each with the recency, frequency and monetary value of that customer,
    recency being measured from one day after the latest timestamp of the
    frame.  [held] says how the monetary cell holds the sum of the
    customer's amounts. *)
Definition aggregates_with (held : Z → Z) (df : list Row) : Prop :=
  ∃ newest,
    latest_of df newest
    ∧ snapshot_date df = Some (newest + one_day)
    ∧ NoDup (rfm_Customer_ID <$> rfm_table df)
    ∧ (∀ c, c ∈ rfm_Customer_ID <$> rfm_table df ↔ c ∈ Customer_ID <$> df)
    ∧ ∀ a, a ∈ rfm_table df →
        ∃ latest,
          latest_of (records_of (rfm_Customer_ID a) df) latest
          ∧ whole_days (newest + one_day - latest) (Recency a)
          ∧ distinct_orders (records_of (rfm_Customer_ID a) df) (Frequency a)
          ∧ Monetary a = held (spent_by (rfm_Customer_ID a) df).


(** The aggregation with the monetary value the sum as an int64 cell holds
    it. *)
Definition aggregates_int64 (df : list Row) : Prop := aggregates_with wrap_int64 df.

(** ** Quintiles of ranks *)

(** The rank columns handed to [pd.qcut], as the numbers pandas holds. *)
Definition rank_values (x : list Z) : list Z := Z.of_nat <$> rank_first x.

(** The six bin edges of [n] ranks, multiplied by 5: they run from 1 to [n]
    in five equal steps of [(n - 1) / 5]. *)
Definition rank_edges (n : nat) : list (option Z) :=
  (λ k, Some (5 + Z.of_nat (n - 1) * Z.of_nat k)) <$> seq 0 6.

(** The bucket, from 1 to 5, of the rank [r] among [n] ranks: the first [k]
    with [r - 1 ≤ k * (n - 1) / 5]. *)
Definition quintile (n r : nat) : nat :=
  if decide (5 * (r - 1) ≤ 1 * (n - 1))%nat then 1%nat
  else if decide (5 * (r - 1) ≤ 2 * (n - 1))%nat then 2%nat
  else if decide (5 * (r - 1) ≤ 3 * (n - 1))%nat then 3%nat
  else if decide (5 * (r - 1) ≤ 4 * (n - 1))%nat then 4%nat
  else 5%nat.

(** ** Scored lines *)

(** Line [i] of the scored frame, written out from line [a] of [rfm]: the
    three ranks of the line, their quintiles read through the two label
    lists, and the composite code. *)
Definition score_row (rfm : list RfmRow) (i : nat) (a : RfmRow) : ScoredRow :=
  let n := length rfm in
  let rr := rank_at (Recency <$> rfm) i (Recency a) in
  let fr := rank_at (Frequency <$> rfm) i (Frequency a) in
  let mr := rank_at (Monetary <$> rfm) i (Monetary a) in
  let rs := [5; 4; 3; 2; 1] !! (quintile n rr - 1)%nat in
  let fs := [1; 2; 3; 4; 5] !! (quintile n fr - 1)%nat in
  let ms := [1; 2; 3; 4; 5] !! (quintile n mr - 1)%nat in
  {| aggregate := a; R_rank := rr; F_rank := fr; M_rank := mr;
     R_Score := rs; F_Score := fs; M_Score := ms;
     RFM_Score := (astype_str rs ++ astype_str fs ++ astype_str ms)%string |}.

(** ** Segments *)

(** The segment rule as an ordered chain of guards on the recency,
    frequency and monetary scores; the guards of the last three rules do not
    read the monetary score. *)
Definition segment_rules : list ((Z → Z → Z → bool) * string) :=
  [ (λ r f m, bool_decide (r >= 4 ∧ f >= 4 ∧ m >= 4), "Best Customers"%string);
    (λ r f _, bool_decide (r >= 4 ∧ f <= 2), "New Customers"%string);
    (λ r f _, bool_decide (r <= 2 ∧ f >= 4), "Loyal Customers"%string);
    (λ _ _ _, true, "Others"%string) ].

(** The label of the first rule whose guard holds. *)
Fixpoint first_match (rules : list ((Z → Z → Z → bool) * string)) (r f m : Z)
  : option string :=
  match rules with
  | [] => None
  | (guard, label) :: rules' =>
      if guard r f m then Some label else first_match rules' r f m
  end.

(** ** Bucket sizes *)

(** The number of lines that received each label, in the order of the
    labels, that is from the first bucket to the last. *)
Definition bucket_sizes (labels : list Z) (scores : list (option Z)) : list nat :=
  (λ label, length (filter (λ s, s = Some label) scores)) <$> labels.

(** The last rank of bucket [k] among [n] ranks; bucket 0 is empty. *)
Definition bucket_end (n k : nat) : nat :=
  match k with
  | O => 0%nat
  | S _ => (1 + (k * (n - 1)) `div` 5)%nat
  end.

(** The sizes of the five buckets of [n] ranks. *)
Definition quintile_sizes (n : nat) : list nat :=
  (λ k, bucket_end n k - bucket_end n (k - 1))%nat <$> seq 1 5.

(** The sizes add up to [n] and no two differ by more than one. *)
Definition evenly_filled (n : nat) (sizes : list nat) : Prop :=
  length sizes = 5%nat
  ∧ sum_list sizes = n
  ∧ ∀ s t, s ∈ sizes → t ∈ sizes → (s ≤ t + 1)%nat.

(** No bucket is larger than a bucket before it: what is left over after an
    even split sits in the earliest buckets. *)
Definition extras_first (sizes : list nat) : Prop :=
  ∀ i j s t, (i < j)%nat → sizes !! i = Some s → sizes !! j = Some t → (t ≤ s)%nat.

(** The bucket-size statement for one column of raw values [x] scored with
    [labels]: the scores exist, the buckets are evenly filled and the
    earlier buckets hold what is left over. *)
Definition buckets_extras_first (x : list Z) (labels : list Z) : Prop :=
  ∃ scores,
    qcut (rank_values x) 5 labels = Ok scores
    ∧ evenly_filled (length x) (bucket_sizes labels scores)
    ∧ extras_first (bucket_sizes labels scores).

(** ** Rank columns *)

(** What is asked of the rank column built from the raw column [dim] of
    [rfm]: the ranks are the numbers 1..N, each used once, they follow the
    raw values, and equal raw values are ranked in frame order. *)
Definition rank_column_ok (dim : RfmRow → Z) (rfm : list RfmRow) : Prop :=
  let ranks := rank_first (dim <$> rfm) in
  ranks ≡ₚ seq 1 (length rfm)
  ∧ NoDup ranks
  ∧ ∀ i j a b ri rj,
      rfm !! i = Some a → rfm !! j = Some b →
      ranks !! i = Some ri → ranks !! j = Some rj →
      (dim a < dim b → (ri < rj)%nat)
      ∧ (dim a = dim b → (i < j)%nat → (ri < rj)%nat).

(** The three records of the aggregation example: one customer, the first
    and the last record under one order, the middle one under another. *)
Definition three_records (c o o' t1 t2 t3 a1 a2 a3 : Z) : list Row :=
  [ {| Invoice_Number := o; Invoice_Date := t1; Customer_ID := c; Amount := a1 |};
    {| Invoice_Number := o'; Invoice_Date := t2; Customer_ID := c; Amount := a2 |};
    {| Invoice_Number := o; Invoice_Date := t3; Customer_ID := c; Amount := a3 |} ].

(** ** Statements about buckets and extreme values *)

(** The buckets of one column of raw values [x] scored with [labels]: the
    scores exist, the bucket sizes are those of the quintiles of the length
    of the column, they are evenly filled, each is the fifth of the length
    rounded down or up, and the first one is rounded up. *)
Definition buckets_even (x : list Z) (labels : list Z) : Prop :=
  ∃ scores,
    qcut (rank_values x) 5 labels = Ok scores
    ∧ bucket_sizes labels scores = quintile_sizes (length x)
    ∧ evenly_filled (length x) (bucket_sizes labels scores)
    ∧ bucket_sizes labels scores !! 0%nat = Some ((length x + 4) `div` 5)%nat
    ∧ Forall (λ s, s = (length x `div` 5)%nat ∨ s = ((length x + 4) `div` 5)%nat)
        (bucket_sizes labels scores).

(** Line [i] of [rfm], which is [a], holds the single largest (smallest)
    value of the raw column [dim]. *)
Definition single_largest (dim : RfmRow → Z) (rfm : list RfmRow) (i : nat)
    (a : RfmRow) : Prop :=
  rfm !! i = Some a ∧ ∀ j b, rfm !! j = Some b → j ≠ i → dim b < dim a.

Definition single_smallest (dim : RfmRow → Z) (rfm : list RfmRow) (i : nat)
    (a : RfmRow) : Prop :=
  rfm !! i = Some a ∧ ∀ j b, rfm !! j = Some b → j ≠ i → dim a < dim b.

(** A score is present and lies between 1 and 5. *)
Definition score_in_range (score : option Z) : Prop :=
  ∃ v, score = Some v ∧ 1 <= v <= 5.

(** ** Sample populations *)

(** Customers whose three raw values all equal the given number. *)
Definition lines_of (values : list Z) : list RfmRow :=
  (λ v, {| rfm_Customer_ID := v; Recency := v; Frequency := v; Monetary := v |})
    <$> values.

Definition six_lines : list RfmRow := lines_of [10; 20; 30; 40; 50; 60].

Definition seven_lines : list RfmRow := lines_of [10; 20; 30; 40; 50; 60; 70].

(** Three customers, the first and the last with the same raw values. *)
Definition tied_lines : list RfmRow := lines_of [3; 1; 3].

(** The finished frame for [tied_lines]. *)
Definition tied_scored : list SegmentedRow :=
  Eval vm_compute in
    match rfm_scores tied_lines with
    | Ok out => out
    | Raise _ => []
    end.

(** The finished frame for [seven_lines]. *)
Definition seven_scored : list SegmentedRow :=
  Eval vm_compute in
    match rfm_scores seven_lines with
    | Ok out => out
    | Raise _ => []
    end.

(** Its last line, the customer with all three raw values at 70. *)
Definition seventh_line : SegmentedRow :=
  Eval vm_compute in
    match seven_scored !! 6%nat with
    | Some line => line
    | None => {| scored := score_row [] 0 {| rfm_Customer_ID := 0; Recency := 0;
                                             Frequency := 0; Monetary := 0 |};
                 Segment := EmptyString |}
    end.

(** Three customers who spent the same amount. *)
Definition same_spenders : list RfmRow :=
  [ {| rfm_Customer_ID := 1; Recency := 9; Frequency := 2; Monetary := 50 |};
    {| rfm_Customer_ID := 2; Recency := 3; Frequency := 1; Monetary := 50 |};
    {| rfm_Customer_ID := 3; Recency := 1; Frequency := 4; Monetary := 50 |} ].

(** The finished frame for [same_spenders]. *)
Definition same_spenders_scored : list SegmentedRow :=
  Eval vm_compute in
    match rfm_scores same_spenders with
    | Ok out => out
    | Raise _ => []
    end.

(** Its first line, the customer with all three raw values at 10. *)
Definition first_line : SegmentedRow :=
  Eval vm_compute in
    match seven_scored !! 0%nat with
    | Some line => line
    | None => seventh_line
    end.

(** A scored line that carries nothing but its three scores. *)
Definition row_with_scores (r f m : Z) : ScoredRow :=
  {| aggregate := {| rfm_Customer_ID := 0; Recency := 0; Frequency := 0;
                     Monetary := 0 |};
     R_rank := 0; F_rank := 0; M_rank := 0;
     R_Score := Some r; F_Score := Some f; M_Score := Some m;
     RFM_Score := (pretty r ++ pretty f ++ pretty m)%string |}.

(** ** Customer lines written out *)

(** The line of customer [c], computed from the rows of that customer and
    from the snapshot of the whole selection. *)
Definition customer_line (df : list Row) (c : Z) : RfmRow :=
  {| rfm_Customer_ID := c;
     Recency := days (default 0 (snapshot_date df)
                      - default 0 (series_max (Invoice_Date <$> records_of c df)));
     Frequency := nunique (Invoice_Number <$> records_of c df);
     Monetary := series_sum (Amount <$> records_of c df) |}.

(** * Properties *)

(** ** Series reductions *)

Section reductions.
Implicit Types (x : list Z) (v w : Z).

Lemma max_from_lower v x : v ≤ max_from v x.
Proof.
  unfold max_from. revert v.
  induction x as [|w x IH]; intros v; simpl; [lia|].
  specialize (IH (Z.max v w)). lia.
Qed.

Lemma max_from_upper v x w : w ∈ x → w ≤ max_from v x.
Proof.
  unfold max_from. revert v.
  induction x as [|u x IH]; intros v Hw; [by apply elem_of_nil in Hw|].
  apply elem_of_cons in Hw as [->|Hw]; simpl.
  - pose proof (max_from_lower (Z.max v u) x) as H. unfold max_from in H. lia.
  - by apply IH.
Qed.

Lemma max_from_elem v x : max_from v x ∈ v :: x.
Proof.
  unfold max_from. revert v.
  induction x as [|u x IH]; intros v; simpl; [apply list_elem_of_here|].
  specialize (IH (Z.max v u)).
  apply elem_of_cons in IH as [IH|IH].
  - rewrite IH. destruct (Z.max_spec v u) as [[_ ->]|[_ ->]].
    + apply list_elem_of_further, list_elem_of_here.
    + apply list_elem_of_here.
  - by do 2 apply list_elem_of_further.
Qed.

Lemma wrap_int64_range z : int64 (wrap_int64 z).
Proof.
  unfold int64, wrap_int64.
  pose proof (Z.mod_pos_bound (z + 2 ^ 63) (2 ^ 64) ltac:(done)). lia.
Qed.


(** An addition sees no difference between a wrapped and an exact
    summand. *)
Lemma wrap_int64_add_r v s : wrap_int64 (v + wrap_int64 s) = wrap_int64 (v + s).
Proof.
  unfold wrap_int64. f_equal.
  replace (v + ((s + 2 ^ 63) `mod` 2 ^ 64 - 2 ^ 63) + 2 ^ 63)
    with (v + (s + 2 ^ 63) `mod` 2 ^ 64) by lia.
  rewrite Z.add_mod_idemp_r by done. f_equal. lia.
Qed.

Lemma series_sum_cons v x : series_sum (v :: x) = wrap_int64 (v + series_sum x).
Proof. reflexivity. Qed.

(** The sum of a column is the exact sum of its cells, wrapped once. *)
Lemma series_sum_wrap x : series_sum x = wrap_int64 (foldr Z.add 0 x).
Proof.
  induction x as [|v x IH]; [done|].
  rewrite series_sum_cons, IH, wrap_int64_add_r. done.
Qed.

(** [nunique] counts any duplicate-free enumeration of the values. *)
Lemma nunique_enum x (ids : list Z) :
  NoDup ids → (∀ o, o ∈ ids ↔ o ∈ x) → nunique x = Z.of_nat (length ids).
Proof.
  intros Hnd Hids. unfold nunique. f_equal.
  rewrite <- (size_list_to_set (C:=gset Z) ids) by done.
  f_equal. apply set_eq. intros o.
  rewrite !elem_of_list_to_set. by rewrite Hids.
Qed.
End reductions.

(** ** Grouping *)

Section grouping.
Implicit Types (r : Row) (g : Group) (gs : list Group) (df : list Row) (c : Z).

Lemma add_row_keys r gs c :
  c ∈ key <$> add_row r gs ↔ c = Customer_ID r ∨ c ∈ key <$> gs.
Proof.
  induction gs as [|g gs IH]; simpl.
  - rewrite list_elem_of_singleton, elem_of_nil. tauto.
  - repeat case_decide; simpl; rewrite !elem_of_cons.
    + simpl. tauto.
    + simpl. intuition congruence.
    + rewrite IH. tauto.
Qed.

Lemma add_row_sorted r gs :
  StronglySorted Z.lt (key <$> gs) → StronglySorted Z.lt (key <$> add_row r gs).
Proof.
  induction gs as [|g gs IH]; simpl; intros Hs.
  - repeat constructor.
  - apply StronglySorted_inv in Hs as [Hs Hg].
    repeat case_decide; simpl.
    + constructor; [by constructor|].
      constructor; [done|].
      eapply Forall_impl; [exact Hg|]. simpl. intros; lia.
    + by constructor.
    + constructor; [by apply IH|].
      apply Forall_forall. intros c Hc.
      apply add_row_keys in Hc as [->|Hc]; [lia|].
      by eapply Forall_forall in Hg.
Qed.

Lemma add_row_rows_for r gs c :
  rows_for c (add_row r gs)
  = (if decide (Customer_ID r = c) then [r] else []) ++ rows_for c gs.
Proof.
  induction gs as [|g gs IH]; simpl.
  - unfold rows; simpl. by repeat case_decide.
  - destruct (decide (Customer_ID r < key g)) as [Hlt|Hge]; simpl.
    { unfold rows at 1; simpl. by repeat case_decide. }
    destruct (decide (Customer_ID r = key g)) as [Heq|Hne]; simpl.
    { unfold rows at 1; simpl. repeat case_decide; simpl; congruence. }
    rewrite IH. repeat case_decide; simpl; congruence.
Qed.

Lemma groupby_keys df c : c ∈ key <$> groupby df ↔ c ∈ Customer_ID <$> df.
Proof.
  induction df as [|r df IH]; simpl; [done|].
  rewrite add_row_keys, IH, elem_of_cons. done.
Qed.

Lemma groupby_sorted df : StronglySorted Z.lt (key <$> groupby df).
Proof.
  induction df as [|r df IH]; simpl; [constructor|by apply add_row_sorted].
Qed.

Lemma strictly_sorted_NoDup (l : list Z) : StronglySorted Z.lt l → NoDup l.
Proof.
  induction 1 as [|v l _ IH Hv]; constructor; [|done].
  intros Hin. eapply Forall_forall in Hv; [|done]. lia.
Qed.

Lemma groupby_NoDup df : NoDup (key <$> groupby df).
Proof. apply strictly_sorted_NoDup, groupby_sorted. Qed.

Lemma groupby_rows_for df c :
  rows_for c (groupby df) = filter (λ r, Customer_ID r = c) df.
Proof.
  induction df as [|r df IH]; simpl; [done|].
  rewrite add_row_rows_for, IH, filter_cons. by case_decide.
Qed.

Lemma rows_for_absent gs c : c ∉ key <$> gs → rows_for c gs = [].
Proof.
  induction gs as [|g gs IH]; simpl; [done|].
  rewrite not_elem_of_cons. intros [Hne Hc].
  case_decide; [congruence|]. by apply IH.
Qed.

Lemma rows_for_group gs g :
  NoDup (key <$> gs) → g ∈ gs → rows_for (key g) gs = rows g.
Proof.
  induction gs as [|g' gs IH]; simpl; intros Hnd Hg; [by apply elem_of_nil in Hg|].
  apply NoDup_cons in Hnd as [Hnew Hnd].
  apply elem_of_cons in Hg as [->|Hg].
  - rewrite decide_True by done. rewrite rows_for_absent by done. apply app_nil_r.
  - rewrite decide_False; [by apply IH|].
    intros Heq. apply Hnew. rewrite Heq. by apply list_elem_of_fmap_2.
Qed.

(** The rows of a group are the rows of its customer, in frame order. *)
Lemma groupby_rows df g :
  g ∈ groupby df → rows g = filter (λ r, Customer_ID r = key g) df.
Proof.
  intros Hg. rewrite <- groupby_rows_for.
  symmetry. apply rows_for_group; [apply groupby_NoDup|done].
Qed.

Lemma groupby_nil_inv df : groupby df = [] → df = [].
Proof.
  destruct df as [|r df]; [done|]. intros Hnil.
  assert (Customer_ID r ∈ key <$> groupby (r :: df)) as Hin.
  { apply groupby_keys. simpl. apply list_elem_of_here. }
  rewrite Hnil in Hin. by apply elem_of_nil in Hin.
Qed.
End grouping.

(** ** Aggregation *)

Section aggregation.
Implicit Types (r : Row) (g : Group) (df : list Row) (c : Z).

Lemma latest_of_max_from r (rs : list Row) :
  latest_of (r :: rs) (max_from (Invoice_Date r) (Invoice_Date <$> rs)).
Proof.
  split.
  - pose proof (max_from_elem (Invoice_Date r) (Invoice_Date <$> rs)) as Hin.
    change (Invoice_Date r :: (Invoice_Date <$> rs))
      with (Invoice_Date <$> r :: rs) in Hin.
    apply list_elem_of_fmap in Hin as (r' & Heq & Hr'). eauto.
  - intros r' [->|Hr']%elem_of_cons.
    + apply max_from_lower.
    + by apply max_from_upper, list_elem_of_fmap_2.
Qed.

Lemma snapshot_date_cons r df :
  snapshot_date (r :: df)
  = Some (max_from (Invoice_Date r) (Invoice_Date <$> df) + one_day).
Proof. reflexivity. Qed.

Lemma rfm_table_cons r df :
  rfm_table (r :: df)
  = agg (max_from (Invoice_Date r) (Invoice_Date <$> df) + one_day)
      <$> groupby (r :: df).
Proof. unfold rfm_table. by rewrite snapshot_date_cons. Qed.

Lemma rfm_table_groupby df : ∃ snapshot, rfm_table df = agg snapshot <$> groupby df.
Proof.
  destruct df as [|r df].
  - by exists 0.
  - eexists. apply rfm_table_cons.
Qed.

Lemma rfm_table_keys df : rfm_Customer_ID <$> rfm_table df = key <$> groupby df.
Proof.
  destruct (rfm_table_groupby df) as [snapshot ->].
  rewrite <- list_fmap_compose. by apply list_fmap_ext.
Qed.

Lemma whole_days_days delta : whole_days delta (days delta).
Proof.
  unfold whole_days, days.
  assert (0 < one_day) as Hpos by done.
  pose proof (Z.mul_div_le delta one_day Hpos).
  pose proof (Z.mul_succ_div_gt delta one_day Hpos).
  lia.
Qed.

Lemma distinct_orders_nunique (rs : list Row) :
  distinct_orders rs (nunique (Invoice_Number <$> rs)).
Proof.
  exists (elements (list_to_set (Invoice_Number <$> rs) : gset Z)).
  split; [apply NoDup_elements|]. split; [|done].
  intros o. rewrite elem_of_elements, elem_of_list_to_set, list_elem_of_fmap.
  split; intros (r & H1 & H2); eauto.
Qed.

Lemma exact_sum_records c df :
  foldr Z.add 0 (Amount <$> records_of c df) = spent_by c df.
Proof.
  unfold records_of. induction df as [|r df IH]; simpl; [done|].
  rewrite filter_cons. case_decide; rewrite <- IH; reflexivity.
Qed.

Lemma series_sum_records c df :
  series_sum (Amount <$> records_of c df) = wrap_int64 (spent_by c df).
Proof. by rewrite series_sum_wrap, exact_sum_records. Qed.

Lemma aggregates_int64_nonempty df : df ≠ [] → aggregates_int64 df.
Proof.
  destruct df as [|r0 df0]; [done|]. intros _.
  exists (max_from (Invoice_Date r0) (Invoice_Date <$> df0)).
  split; [apply latest_of_max_from|]. split; [done|].
  split; [rewrite rfm_table_keys; apply groupby_NoDup|].
  split; [intros c; rewrite rfm_table_keys; apply groupby_keys|].
  intros a Ha. rewrite rfm_table_cons in Ha.
  apply list_elem_of_fmap in Ha as (g & -> & Hg).
  pose proof (groupby_rows _ g Hg) as Hrows.
  change (rfm_Customer_ID (agg _ g)) with (key g).
  unfold records_of. rewrite <- Hrows.
  exists (max_from (Invoice_Date (first_row g)) (Invoice_Date <$> more_rows g)).
  split; [apply latest_of_max_from|].
  split; [apply whole_days_days|].
  split; [apply distinct_orders_nunique|].
  rewrite <- series_sum_records. unfold records_of. by rewrite <- Hrows.
Qed.
End aggregation.

(** ** Ranking *)

Section counting.
Context (P : Z → Prop) `{!∀ u, Decision (P u)}.
Implicit Types (x : list Z) (i j : nat).

Lemma count_take_le x i : (length (filter P (take i x)) ≤ length (filter P x))%nat.
Proof.
  rewrite <- (take_drop i x) at 2.
  rewrite filter_app, length_app. lia.
Qed.

Lemma count_take_mono x i j :
  (i ≤ j)%nat → (length (filter P (take i x)) ≤ length (filter P (take j x)))%nat.
Proof.
  intros Hij. replace (take i x) with (take i (take j x)).
  - apply count_take_le.
  - rewrite take_take. f_equal. lia.
Qed.

Lemma count_take_hit x i v :
  x !! i = Some v → P v →
  length (filter P (take (S i) x)) = S (length (filter P (take i x))).
Proof.
  intros Hi Hv. rewrite (take_S_r _ _ _ Hi), filter_app, length_app.
  rewrite filter_cons, decide_True by done. simpl. lia.
Qed.
End counting.

Section ranking.
Implicit Types (x : list Z) (v w : Z) (i j : nat).

Lemma count_below_equal x v w :
  v < w →
  (length (filter (λ u, (u < v)%Z) x) + length (filter (λ u, u = v) x)
   ≤ length (filter (λ u, (u < w)%Z) x))%nat.
Proof.
  intros Hvw. induction x as [|u x IH]; simpl; [done|].
  rewrite !filter_cons. repeat case_decide; simpl; lia.
Qed.

Lemma count_below_equal_length x v :
  (length (filter (λ u, (u < v)%Z) x) + length (filter (λ u, u = v) x)
   ≤ length x)%nat.
Proof.
  induction x as [|u x IH]; simpl; [done|].
  rewrite !filter_cons. repeat case_decide; simpl; lia.
Qed.

(** Ranks follow the values, and the frame order among equal values. *)
Lemma rank_at_lt x i j v w :
  x !! i = Some v → x !! j = Some w →
  v < w ∨ (v = w ∧ (i < j)%nat) →
  (rank_at x i v < rank_at x j w)%nat.
Proof.
  intros Hi Hj Hord. unfold rank_at.
  pose proof (count_take_hit (λ u, u = v) x i v Hi eq_refl) as Hhit.
  destruct Hord as [Hlt|[-> Hlt]].
  - pose proof (count_below_equal x v w Hlt).
    pose proof (count_take_le (λ u, u = v) x (S i)). lia.
  - pose proof (count_take_mono (λ u, u = w) x (S i) j). lia.
Qed.

Lemma rank_at_bounds x i v :
  x !! i = Some v → (1 ≤ rank_at x i v ≤ length x)%nat.
Proof.
  intros Hi. unfold rank_at.
  pose proof (count_take_hit (λ u, u = v) x i v Hi eq_refl).
  pose proof (count_take_le (λ u, u = v) x (S i)).
  pose proof (count_below_equal_length x v). lia.
Qed.

Lemma rank_first_lookup x i : rank_first x !! i = rank_at x i <$> x !! i.
Proof. apply list_lookup_imap. Qed.

Lemma length_rank_first x : length (rank_first x) = length x.
Proof. apply length_imap. Qed.

Lemma rank_first_inj x i j k :
  rank_first x !! i = Some k → rank_first x !! j = Some k → i = j.
Proof.
  rewrite !rank_first_lookup. intros Hi Hj.
  destruct (x !! i) as [v|] eqn:Hv; [|done].
  destruct (x !! j) as [w|] eqn:Hw; [|done].
  simpl in Hi, Hj. injection Hi as Hi. injection Hj as Hj.
  destruct (Z.lt_trichotomy v w) as [Hlt|[Heq|Hgt]].
  - pose proof (rank_at_lt x i j v w Hv Hw (or_introl Hlt)). lia.
  - destruct (Nat.lt_trichotomy i j) as [Hij|[Hij|Hij]]; [|done|].
    + pose proof (rank_at_lt x i j v w Hv Hw (or_intror (conj Heq Hij))). lia.
    + pose proof (rank_at_lt x j i w v Hw Hv (or_intror (conj (eq_sym Heq) Hij))). lia.
  - pose proof (rank_at_lt x j i w v Hw Hv (or_introl Hgt)). lia.
Qed.

Lemma rank_first_NoDup x : NoDup (rank_first x).
Proof. apply NoDup_alt. intros i j k. apply rank_first_inj. Qed.

Lemma rank_first_range x k :
  k ∈ rank_first x → (1 ≤ k ≤ length x)%nat.
Proof.
  intros (i & Hi)%list_elem_of_lookup. rewrite rank_first_lookup in Hi.
  destruct (x !! i) as [v|] eqn:Hv; [|done].
  injection Hi as <-. by apply rank_at_bounds.
Qed.

(** The ranks are the numbers from 1 to the length of the series, each
    used once. *)
Lemma rank_first_Permutation x : rank_first x ≡ₚ seq 1 (length x).
Proof.
  apply submseteq_length_Permutation.
  - apply NoDup_submseteq; [apply rank_first_NoDup|].
    intros k Hk%rank_first_range. apply elem_of_seq. lia.
  - by rewrite length_seq, length_rank_first.
Qed.
End ranking.

(** ** Quantile edges of a rank column *)

Section quantiles.
Implicit Types (x : list Z) (n k r : nat).

Lemma Sorted_of_nat_seq a n : Sorted Z.le (Z.of_nat <$> seq a n).
Proof.
  revert a. induction n as [|n IH]; intros a; simpl; constructor; [apply IH|].
  destruct n; simpl; constructor. lia.
Qed.

Lemma merge_sort_rank_values x :
  merge_sort Z.le (rank_values x) = Z.of_nat <$> seq 1 (length x).
Proof.
  apply (Sorted_unique Z.le).
  - apply (Sorted_merge_sort Z.le).
  - apply Sorted_of_nat_seq.
  - rewrite merge_sort_Permutation. unfold rank_values.
    by rewrite rank_first_Permutation.
Qed.

Lemma lookup_of_nat_seq n i :
  (i < n)%nat → (Z.of_nat <$> seq 1 n) !! i = Some (Z.of_nat (S i)).
Proof. intros Hi. by rewrite list_lookup_fmap, lookup_seq_lt. Qed.

Lemma quantile_times_ranks n k :
  (1 ≤ n)%nat → (k ≤ 5)%nat →
  quantile_times 5 (Z.of_nat <$> seq 1 n) k
  = Some (5 + Z.of_nat (n - 1) * Z.of_nat k).
Proof.
  intros Hn Hk. unfold quantile_times.
  rewrite length_fmap, length_seq.
  pose proof (Nat.div_mod_eq ((n - 1) * k) 5) as Hdiv.
  pose proof (Nat.mod_upper_bound ((n - 1) * k) 5) as Hmod.
  set (lo := (((n - 1) * k) `div` 5)%nat) in *.
  set (frac := (((n - 1) * k) `mod` 5)%nat) in *.
  assert (lo < n)%nat as Hlo.
  { do 6 (destruct k as [|k]; [lia|]). lia. }
  rewrite (lookup_of_nat_seq _ _ Hlo). simpl.
  destruct (decide (S lo < n)%nat) as [Hhi|Hhi].
  - rewrite (lookup_of_nat_seq _ _ Hhi). simpl. f_equal.
    do 6 (destruct k as [|k]; [lia|]). lia.
  - rewrite lookup_ge_None_2 by (rewrite length_fmap, length_seq; lia).
    simpl. f_equal.
    do 6 (destruct k as [|k]; [lia|]). lia.
Qed.

Lemma qcut_bins_ranks x :
  (1 ≤ length x)%nat → qcut_bins 5 (rank_values x) = rank_edges (length x).
Proof.
  intros Hn. unfold qcut_bins, rank_edges.
  rewrite merge_sort_rank_values.
  apply list_fmap_ext. intros i k Hk.
  apply lookup_seq in Hk as [-> Hi]. apply quantile_times_ranks; lia.
Qed.

Lemma qcut_bins_nil : qcut_bins 5 (rank_values []) = replicate 6 None.
Proof. reflexivity. Qed.
End quantiles.

(** ** Scores of a rank column *)

Lemma length_filter_cons {A} (P : A → Prop) `{!∀ a, Decision (P a)} a l :
  length (filter P (a :: l))
  = ((if decide (P a) then 1 else 0) + length (filter P l))%nat.
Proof. rewrite filter_cons. by case_decide. Qed.

Section scores.
Implicit Types (x : list Z) (n k r : nat) (labels : list Z).

Lemma length_rank_edges n : length (rank_edges n) = 6%nat.
Proof. reflexivity. Qed.

Lemma rank_edges_NoDup n : (2 ≤ n)%nat → NoDup (rank_edges n).
Proof.
  intros Hn. unfold rank_edges.
  apply NoDup_fmap_2_strong; [|apply NoDup_seq].
  intros k k' _ _ [= Heq]. nia.
Qed.

Lemma rank_edges_repeat n : (n ≤ 1)%nat → ¬ NoDup (rank_edges n).
Proof.
  intros Hn Hnd. replace (n - 1)%nat with 0%nat in * by lia.
  unfold rank_edges in Hnd. simpl in Hnd.
  apply NoDup_cons in Hnd as [Hnew _]. apply Hnew.
  apply elem_of_cons. left. f_equal. lia.
Qed.

Lemma quintile_range n r : (1 ≤ quintile n r ≤ 5)%nat.
Proof. unfold quintile. repeat case_decide; lia. Qed.

(** Among the edges of [n] ranks, [pd.cut] files the rank [r] in its
    quintile. *)
Lemma bin_of_rank_edges n r :
  (2 ≤ n)%nat → (1 ≤ r ≤ n)%nat →
  bin_of 5 (rank_edges n) (Z.of_nat r) = quintile n r.
Proof.
  intros Hn Hr. unfold bin_of, rank_edges. simpl.
  destruct (decide (r = 1%nat)) as [->|Hr1].
  { rewrite decide_True by (do 2 f_equal; lia).
    unfold quintile. by rewrite decide_True by lia. }
  rewrite decide_False by (intros [= Heq]; lia).
  rewrite !length_filter_cons, filter_nil. unfold edge_below, quintile.
  repeat match goal with
         | |- context [decide (?a ≤ ?b)%nat] => destruct (decide (a ≤ b)%nat)
         end;
    repeat match goal with
           | |- context [decide (Is_true (bool_decide ?P))] =>
               first
                 [ rewrite (decide_True (P:=Is_true (bool_decide P)))
                     by (apply bool_decide_pack; lia)
                 | rewrite (decide_False (P:=Is_true (bool_decide P)))
                     by (rewrite bool_decide_spec; lia) ]
           end; reflexivity.
Qed.

Lemma qcut_rank_values x labels :
  (2 ≤ length x)%nat →
  qcut (rank_values x) 5 labels
  = Ok ((λ r, labels !! (quintile (length x) r - 1)%nat) <$> rank_first x).
Proof.
  intros Hn. unfold qcut.
  rewrite qcut_bins_ranks by lia.
  rewrite decide_True by (left; by apply rank_edges_NoDup).
  f_equal. unfold rank_values. rewrite <- list_fmap_compose.
  apply list_fmap_ext. intros i r Hr. simpl.
  assert (1 ≤ r ≤ length x)%nat as Hrange.
  { apply rank_first_range. by eapply list_elem_of_lookup_2. }
  unfold label_of. rewrite bin_of_rank_edges, length_rank_edges by done.
  pose proof (quintile_range (length x) r).
  rewrite decide_False by lia. done.
Qed.

(** With fewer than two values the edges coincide (or are NaN) and
    [pd.qcut] raises. *)
Lemma qcut_rank_values_raises x labels :
  (length x ≤ 1)%nat → qcut (rank_values x) 5 labels = Raise BinEdgesNotUnique.
Proof.
  intros Hn. unfold qcut. destruct x as [|v x].
  - reflexivity.
  - rewrite qcut_bins_ranks by (simpl; lia).
    rewrite decide_False; [done|].
    intros [Hnd|Hlen]; [by eapply rank_edges_repeat|done].
Qed.
End scores.

(** ** Segment rule *)

Section segments.
Implicit Types (row : ScoredRow) (r f m : Z).

Lemma at_least_Some score v n :
  score = Some v → at_least score n = Ok (bool_decide (v >= n)).
Proof. by intros ->. Qed.

Lemma at_most_Some score v n :
  score = Some v → at_most score n = Ok (bool_decide (v <= n)).
Proof. by intros ->. Qed.

(** On a line that holds its three scores the rule does not raise and
    answers as the chain of guards does. *)
Lemma rfm_segment_first_match row r f m :
  R_Score row = Some r → F_Score row = Some f → M_Score row = Some m →
  ∃ label,
    first_match segment_rules r f m = Some label ∧ rfm_segment row = Ok label.
Proof.
  intros HR HF HM. unfold rfm_segment.
  rewrite !(at_least_Some _ _ _ HR), !(at_least_Some _ _ _ HF),
    (at_least_Some _ _ _ HM), (at_most_Some _ _ _ HR), (at_most_Some _ _ _ HF).
  simpl. repeat case_bool_decide; simpl; eauto; lia.
Qed.

Lemma first_match_cases r f m label :
  first_match segment_rules r f m = Some label →
  (r >= 4 ∧ f >= 4 ∧ m >= 4 ∧ label = "Best Customers"%string)
  ∨ (¬ (r >= 4 ∧ f >= 4 ∧ m >= 4) ∧ r >= 4 ∧ f <= 2 ∧ label = "New Customers"%string)
  ∨ (¬ (r >= 4 ∧ f >= 4 ∧ m >= 4) ∧ ¬ (r >= 4 ∧ f <= 2) ∧ r <= 2 ∧ f >= 4
     ∧ label = "Loyal Customers"%string)
  ∨ (¬ (r >= 4 ∧ f >= 4 ∧ m >= 4) ∧ ¬ (r >= 4 ∧ f <= 2) ∧ ¬ (r <= 2 ∧ f >= 4)
     ∧ label = "Others"%string).
Proof.
  simpl. repeat case_bool_decide; intros [= <-]; tauto.
Qed.
End segments.

(** ** The scoring pass *)

Section scoring.
Implicit Types (rfm : list RfmRow) (row : ScoredRow).

Lemma map_result_Forall2 {A B} (f : A → result B) l out :
  map_result f l = Ok out ↔ Forall2 (λ x y, f x = Ok y) l out.
Proof.
  revert out. induction l as [|x l IH]; intros out; simpl.
  - split.
    + intros [= <-]. constructor.
    + by inversion 1.
  - split.
    + destruct (f x) as [y|e] eqn:Hfx; simpl; [|done].
      destruct (map_result f l) as [ys|e] eqn:Hl; simpl; [|done].
      intros [= <-]. constructor; [done|by apply IH].
    + inversion 1 as [|? y ? ys Hy Hys]; subst.
      apply IH in Hys. by rewrite Hy, Hys.
Qed.

Lemma with_columns_imap rfm (rr fr mr : nat → RfmRow → nat)
    (rs fs ms : nat → RfmRow → option Z) (c : nat → RfmRow → string) :
  with_columns rfm (imap rr rfm) (imap fr rfm) (imap mr rfm)
    (imap rs rfm) (imap fs rfm) (imap ms rfm) (imap c rfm)
  = imap (λ i a, {| aggregate := a; R_rank := rr i a; F_rank := fr i a;
                    M_rank := mr i a; R_Score := rs i a; F_Score := fs i a;
                    M_Score := ms i a; RFM_Score := c i a |}) rfm.
Proof.
  revert rr fr mr rs fs ms c.
  induction rfm as [|a rfm IH]; intros; simpl; [done|].
  f_equal. apply IH.
Qed.

Lemma concat_columns_imap {A} (l : list A) (x y z : nat → A → string) :
  concat_columns (imap x l) (imap y l) (imap z l)
  = imap (λ i a, (x i a ++ y i a ++ z i a)%string) l.
Proof.
  revert x y z. induction l as [|a l IH]; intros; simpl; [done|].
  f_equal. apply IH.
Qed.

Lemma rank_first_fmap {A} (f : A → Z) (l : list A) :
  rank_first (f <$> l) = imap (λ i a, rank_at (f <$> l) i (f a)) l.
Proof. unfold rank_first. by rewrite imap_fmap. Qed.

(** With fewer than two customers the first [pd.qcut] raises. *)
Lemma rfm_scores_raises rfm :
  (length rfm ≤ 1)%nat → rfm_scores rfm = Raise BinEdgesNotUnique.
Proof.
  intros Hn. unfold rfm_scores.
  change (Z.of_nat <$> rank_first (Recency <$> rfm))
    with (rank_values (Recency <$> rfm)).
  by rewrite qcut_rank_values_raises by by rewrite length_fmap.
Qed.

Lemma score_row_scores rfm i (a : RfmRow) :
  ∃ r f m, R_Score (score_row rfm i a) = Some r
           ∧ F_Score (score_row rfm i a) = Some f
           ∧ M_Score (score_row rfm i a) = Some m
           ∧ 1 <= r <= 5 ∧ 1 <= f <= 5 ∧ 1 <= m <= 5.
Proof.
  simpl.
  pose proof (quintile_range (length rfm)
                (rank_at (Recency <$> rfm) i (Recency a))) as HR.
  pose proof (quintile_range (length rfm)
                (rank_at (Frequency <$> rfm) i (Frequency a))) as HF.
  pose proof (quintile_range (length rfm)
                (rank_at (Monetary <$> rfm) i (Monetary a))) as HM.
  destruct (quintile _ _) as [|[|[|[|[|[|?]]]]]]; try lia;
    destruct (quintile _ _) as [|[|[|[|[|[|?]]]]]]; try lia;
    destruct (quintile _ _) as [|[|[|[|[|[|?]]]]]]; try lia;
    simpl; do 3 eexists; repeat split; lia.
Qed.

(** With two customers or more the pass returns the scored lines, each
    with the segment [rfm_segment] gives it. *)
Lemma rfm_scores_rows rfm :
  (2 ≤ length rfm)%nat →
  ∃ out,
    rfm_scores rfm = Ok out
    ∧ scored <$> out = imap (score_row rfm) rfm
    ∧ Forall (λ line, rfm_segment (scored line) = Ok (Segment line)) out.
Proof.
  intros Hn. unfold rfm_scores.
  change (Z.of_nat <$> rank_first (?f <$> rfm)) with (rank_values (f <$> rfm)).
  rewrite !qcut_rank_values by by rewrite length_fmap.
  simpl. rewrite !length_fmap, !rank_first_fmap, !fmap_imap.
  rewrite concat_columns_imap, with_columns_imap.
  change (imap _ rfm) with (imap (score_row rfm) rfm).
  assert (Forall (λ row, ∃ line, with_segment row = Ok line)
            (imap (score_row rfm) rfm)) as Hall.
  { apply Forall_forall. intros row (i & a & -> & _)%elem_of_lookup_imap_1.
    destruct (score_row_scores rfm i a) as (r & f & m & HR & HF & HM & _).
    destruct (rfm_segment_first_match _ r f m HR HF HM) as (label & _ & Hseg).
    unfold with_segment. rewrite Hseg. simpl. eauto. }
  induction Hall as [|row l [line Hline] _ (out & Hout & Hrows & Hsegs)].
  - exists []. by repeat split.
  - exists (line :: out). simpl. rewrite Hline, Hout. simpl.
    unfold with_segment in Hline.
    destruct (rfm_segment row) as [label|e] eqn:Hseg; [|done].
    simpl in Hline. injection Hline as <-.
    split; [done|]. split; [simpl; f_equal; exact Hrows|].
    by constructor.
Qed.
End scoring.

(** ** Bucket sizes *)

Section buckets.
Implicit Types (x : list Z) (n k r : nat) (labels : list Z).

Lemma filter_ext_in {A} (P Q : A → Prop) `{!∀ a, Decision (P a)}
    `{!∀ a, Decision (Q a)} (l : list A) :
  (∀ a, a ∈ l → P a ↔ Q a) → filter P l = filter Q l.
Proof.
  induction l as [|a l IH]; intros Hext; [done|].
  rewrite !filter_cons.
  rewrite IH by (intros b Hb; apply Hext; by apply list_elem_of_further).
  pose proof (Hext a (list_elem_of_here _ _)).
  repeat case_decide; tauto || done.
Qed.

Lemma filter_fmap_length {A B} (f : A → B) (P : B → Prop)
    `{!∀ b, Decision (P b)} (l : list A) :
  length (filter P (f <$> l)) = length (filter (λ a, P (f a)) l).
Proof.
  induction l as [|a l IH]; [done|].
  rewrite fmap_cons, !length_filter_cons, IH. done.
Qed.

(** How many of the ranks 1..n lie in the interval (lo, hi]. *)
Lemma count_interval n lo hi :
  (lo ≤ hi)%nat →
  length (filter (λ r, lo < r ≤ hi)%nat (seq 1 n)) = (hi `min` n - lo `min` n)%nat.
Proof.
  intros Hle. induction n as [|n IH]; [simpl; lia|].
  rewrite seq_S, filter_app, length_app, IH.
  rewrite filter_cons, filter_nil. case_decide; cbn [length]; lia.
Qed.

Lemma bucket_end_le n k : (1 ≤ n)%nat → (k ≤ 5)%nat → (bucket_end n k ≤ n)%nat.
Proof.
  intros Hn Hk. destruct k as [|k]; [simpl; lia|].
  unfold bucket_end.
  pose proof (Nat.div_mod_eq (S k * (n - 1)) 5).
  pose proof (Nat.mod_upper_bound (S k * (n - 1)) 5).
  do 5 (destruct k as [|k]; [lia|]). lia.
Qed.

Lemma bucket_end_mono n k : (bucket_end n k ≤ bucket_end n (S k))%nat.
Proof.
  destruct k as [|k]; [simpl; lia|].
  unfold bucket_end.
  pose proof (Nat.Div0.div_le_mono (S k * (n - 1)) (S (S k) * (n - 1)) 5). lia.
Qed.

(** The quintile of a rank, read off the bucket ends. *)
Lemma quintile_bucket n r k :
  (1 ≤ r ≤ n)%nat → (1 ≤ k ≤ 5)%nat →
  quintile n r = k ↔ (bucket_end n (k - 1) < r ≤ bucket_end n k)%nat.
Proof.
  intros Hr Hk. unfold quintile, bucket_end.
  pose proof (Nat.div_mod_eq (1 * (n - 1)) 5).
  pose proof (Nat.mod_upper_bound (1 * (n - 1)) 5).
  pose proof (Nat.div_mod_eq (2 * (n - 1)) 5).
  pose proof (Nat.mod_upper_bound (2 * (n - 1)) 5).
  pose proof (Nat.div_mod_eq (3 * (n - 1)) 5).
  pose proof (Nat.mod_upper_bound (3 * (n - 1)) 5).
  pose proof (Nat.div_mod_eq (4 * (n - 1)) 5).
  pose proof (Nat.mod_upper_bound (4 * (n - 1)) 5).
  pose proof (Nat.div_mod_eq (5 * (n - 1)) 5).
  pose proof (Nat.mod_upper_bound (5 * (n - 1)) 5).
  destruct k as [|[|[|[|[|[|k]]]]]]; try lia; simpl (_ - 1)%nat; cbv iota;
    repeat case_decide; lia.
Qed.

Lemma count_quintile n k :
  (1 ≤ n)%nat → (1 ≤ k ≤ 5)%nat →
  length (filter (λ r, quintile n r = k) (seq 1 n))
  = (bucket_end n k - bucket_end n (k - 1))%nat.
Proof.
  intros Hn Hk.
  rewrite (filter_ext_in _ (λ r, bucket_end n (k - 1) < r ≤ bucket_end n k)%nat).
  - pose proof (bucket_end_le n k Hn).
    pose proof (bucket_end_le n (k - 1) Hn).
    pose proof (bucket_end_mono n (k - 1)).
    replace (S (k - 1)) with k in * by lia.
    rewrite count_interval by lia. lia.
  - intros r Hr%elem_of_seq. apply quintile_bucket; lia.
Qed.
Lemma bucket_size_label x labels k label :
  NoDup labels → (1 ≤ length x)%nat → (1 ≤ k ≤ 5)%nat →
  labels !! (k - 1)%nat = Some label →
  length (filter (λ s, s = Some label)
            ((λ r, labels !! (quintile (length x) r - 1)%nat) <$> rank_first x))
  = (bucket_end (length x) k - bucket_end (length x) (k - 1))%nat.
Proof.
  intros Hnd Hn Hk Hlabel.
  rewrite filter_fmap_length, rank_first_Permutation.
  rewrite <- (count_quintile (length x) k) by done.
  f_equal. apply filter_ext_in. intros r Hr%elem_of_seq. split.
  - intros Hq. pose proof (NoDup_lookup _ _ _ _ Hnd Hq Hlabel).
    pose proof (quintile_range (length x) r). lia.
  - by intros ->.
Qed.

(** The buckets of a scored column have the sizes of the quintiles of its
    length, whatever the raw values. *)
Lemma bucket_sizes_qcut x labels :
  NoDup labels → length labels = 5%nat → (2 ≤ length x)%nat →
  ∃ scores,
    qcut (rank_values x) 5 labels = Ok scores
    ∧ bucket_sizes labels scores = quintile_sizes (length x).
Proof.
  intros Hnd Hlen Hn. eexists. split; [by apply qcut_rank_values|].
  destruct labels as [|l1 [|l2 [|l3 [|l4 [|l5 [|]]]]]]; try done.
  unfold bucket_sizes, quintile_sizes.
  rewrite !fmap_cons, !fmap_nil. cbn [seq].
  rewrite (bucket_size_label x _ 1 l1), (bucket_size_label x _ 2 l2),
    (bucket_size_label x _ 3 l3), (bucket_size_label x _ 4 l4),
    (bucket_size_label x _ 5 l5) by (done || lia).
  done.
Qed.

Lemma quintile_sizes_eq n :
  quintile_sizes n
  = [ (1 + (1 * (n - 1)) `div` 5)%nat;
      ((2 * (n - 1)) `div` 5 - (1 * (n - 1)) `div` 5)%nat;
      ((3 * (n - 1)) `div` 5 - (2 * (n - 1)) `div` 5)%nat;
      ((4 * (n - 1)) `div` 5 - (3 * (n - 1)) `div` 5)%nat;
      ((5 * (n - 1)) `div` 5 - (4 * (n - 1)) `div` 5)%nat ].
Proof.
  unfold quintile_sizes. cbn [seq fmap list_fmap].
  unfold bucket_end. cbn [Nat.sub]. repeat f_equal; lia.
Qed.

(** Each bucket holds the fifth of [n] rounded down or up, the first one
    always rounded up, and together they hold [n]. *)
Lemma quintile_sizes_even n :
  (1 ≤ n)%nat →
  evenly_filled n (quintile_sizes n)
  ∧ quintile_sizes n !! 0%nat = Some ((n + 4) `div` 5)%nat
  ∧ Forall (λ s, s = (n `div` 5)%nat ∨ s = ((n + 4) `div` 5)%nat) (quintile_sizes n).
Proof.
  intros Hn. rewrite quintile_sizes_eq.
  pose proof (Nat.div_mod_eq (1 * (n - 1)) 5).
  pose proof (Nat.mod_upper_bound (1 * (n - 1)) 5).
  pose proof (Nat.div_mod_eq (2 * (n - 1)) 5).
  pose proof (Nat.mod_upper_bound (2 * (n - 1)) 5).
  pose proof (Nat.div_mod_eq (3 * (n - 1)) 5).
  pose proof (Nat.mod_upper_bound (3 * (n - 1)) 5).
  pose proof (Nat.div_mod_eq (4 * (n - 1)) 5).
  pose proof (Nat.mod_upper_bound (4 * (n - 1)) 5).
  pose proof (Nat.div_mod_eq (5 * (n - 1)) 5).
  pose proof (Nat.mod_upper_bound (5 * (n - 1)) 5).
  pose proof (Nat.div_mod_eq n 5).
  pose proof (Nat.mod_upper_bound n 5).
  pose proof (Nat.div_mod_eq (n + 4) 5).
  pose proof (Nat.mod_upper_bound (n + 4) 5).
  assert (Forall (λ s, s = (n `div` 5)%nat ∨ s = ((n + 4) `div` 5)%nat)
            [ (1 + (1 * (n - 1)) `div` 5)%nat;
              ((2 * (n - 1)) `div` 5 - (1 * (n - 1)) `div` 5)%nat;
              ((3 * (n - 1)) `div` 5 - (2 * (n - 1)) `div` 5)%nat;
              ((4 * (n - 1)) `div` 5 - (3 * (n - 1)) `div` 5)%nat;
              ((5 * (n - 1)) `div` 5 - (4 * (n - 1)) `div` 5)%nat ]) as Hall.
  { repeat (apply Forall_cons_2; [lia|]). apply Forall_nil_2. }
  split; [|split; [|exact Hall]].
  2:{ change (Some (1 + (1 * (n - 1)) `div` 5)%nat = Some ((n + 4) `div` 5)%nat).
      f_equal. lia. }
  split; [done|]. split; [cbn [sum_list_with id]; lia|].
  intros s t Hs Ht.
  eapply Forall_forall in Hs; [|exact Hall].
  eapply Forall_forall in Ht; [|exact Hall].
  cbv beta in Hs, Ht. lia.
Qed.
End buckets.

(** ** Extreme values *)

Section extremes.
Implicit Types (x : list Z) (v w : Z) (i j : nat).

Lemma rank_first_hits x k :
  (1 ≤ k ≤ length x)%nat → ∃ j w, x !! j = Some w ∧ rank_at x j w = k.
Proof.
  intros Hk.
  assert (k ∈ rank_first x) as Hin.
  { rewrite rank_first_Permutation. apply elem_of_seq. lia. }
  apply list_elem_of_lookup in Hin as [j Hj].
  rewrite rank_first_lookup in Hj.
  destruct (x !! j) as [w|] eqn:Hw; [|done].
  injection Hj as Hj. eauto.
Qed.

(** A value above all the others takes the last rank. *)
Lemma rank_at_largest x i v :
  x !! i = Some v →
  (∀ j w, x !! j = Some w → j ≠ i → w < v) →
  rank_at x i v = length x.
Proof.
  intros Hi Hmax.
  pose proof (rank_at_bounds x i v Hi) as Hb.
  destruct (rank_first_hits x (length x)) as (j & w & Hj & Hrank); [lia|].
  destruct (decide (j = i)) as [->|Hne]; [congruence|].
  pose proof (rank_at_lt x j i w v Hj Hi (or_introl (Hmax j w Hj Hne))). lia.
Qed.

(** A value below all the others takes the first rank. *)
Lemma rank_at_smallest x i v :
  x !! i = Some v →
  (∀ j w, x !! j = Some w → j ≠ i → v < w) →
  rank_at x i v = 1%nat.
Proof.
  intros Hi Hmin.
  pose proof (rank_at_bounds x i v Hi) as Hb.
  destruct (rank_first_hits x 1) as (j & w & Hj & Hrank); [lia|].
  destruct (decide (j = i)) as [->|Hne]; [congruence|].
  pose proof (rank_at_lt x i j v w Hi Hj (or_introl (Hmin j w Hj Hne))). lia.
Qed.

Lemma quintile_last n : (2 ≤ n)%nat → quintile n n = 5%nat.
Proof. intros Hn. unfold quintile. repeat case_decide; lia. Qed.

Lemma quintile_first n : quintile n 1 = 1%nat.
Proof. unfold quintile. rewrite decide_True by lia. done. Qed.

Lemma lookup_fmap_largest {A} (dim : A → Z) (l : list A) i a :
  l !! i = Some a →
  (∀ j b, l !! j = Some b → j ≠ i → dim b < dim a) →
  rank_at (dim <$> l) i (dim a) = length l.
Proof.
  intros Hi Hmax. rewrite <- (length_fmap dim l). apply rank_at_largest.
  - by rewrite list_lookup_fmap, Hi.
  - intros j w Hj Hne. rewrite list_lookup_fmap in Hj.
    destruct (l !! j) as [b|] eqn:Hb; [|done].
    injection Hj as <-. by eapply Hmax.
Qed.

Lemma lookup_fmap_smallest {A} (dim : A → Z) (l : list A) i a :
  l !! i = Some a →
  (∀ j b, l !! j = Some b → j ≠ i → dim a < dim b) →
  rank_at (dim <$> l) i (dim a) = 1%nat.
Proof.
  intros Hi Hmin. apply rank_at_smallest.
  - by rewrite list_lookup_fmap, Hi.
  - intros j w Hj Hne. rewrite list_lookup_fmap in Hj.
    destruct (l !! j) as [b|] eqn:Hb; [|done].
    injection Hj as <-. by eapply Hmin.
Qed.
End extremes.

(** ** Output of the scoring pass, line by line *)

Section output.
Implicit Types (rfm : list RfmRow) (out : list SegmentedRow).

Lemma rfm_scores_Ok_inv rfm out :
  rfm_scores rfm = Ok out →
  (2 ≤ length rfm)%nat
  ∧ scored <$> out = imap (score_row rfm) rfm
  ∧ Forall (λ line, rfm_segment (scored line) = Ok (Segment line)) out.
Proof.
  intros Hout. destruct (decide (2 ≤ length rfm)%nat) as [Hn|Hn].
  - destruct (rfm_scores_rows rfm Hn) as (out' & Hout' & Hrows).
    rewrite Hout in Hout'. injection Hout' as <-. done.
  - rewrite rfm_scores_raises in Hout by lia. done.
Qed.

Lemma rfm_scores_lookup rfm out i line :
  rfm_scores rfm = Ok out → out !! i = Some line →
  ∃ a, rfm !! i = Some a ∧ scored line = score_row rfm i a.
Proof.
  intros (_ & Hrows & _)%rfm_scores_Ok_inv Hline.
  assert ((scored <$> out) !! i = Some (scored line)) as Hi
      by by rewrite list_lookup_fmap, Hline.
  rewrite Hrows, list_lookup_imap in Hi.
  destruct (rfm !! i) as [a|]; [|done]. injection Hi as Hi. eauto.
Qed.

Lemma rfm_scores_line rfm out i a :
  rfm_scores rfm = Ok out → rfm !! i = Some a →
  ∃ line, out !! i = Some line ∧ scored line = score_row rfm i a.
Proof.
  intros Hout Ha.
  pose proof (rfm_scores_Ok_inv _ _ Hout) as (_ & Hrows & _).
  assert (length out = length rfm) as Hlen.
  { rewrite <- (length_fmap scored out), Hrows. apply length_imap. }
  destruct (out !! i) as [line|] eqn:Hline.
  - destruct (rfm_scores_lookup _ _ _ _ Hout Hline) as (a' & Ha' & Hsc).
    exists line. split; [done|]. congruence.
  - apply lookup_ge_None in Hline. apply lookup_lt_Some in Ha. lia.
Qed.

Lemma returned_scores_present rfm out line :
  rfm_scores rfm = Ok out → line ∈ out →
  ∃ r m, R_Score (scored line) = Some r ∧ M_Score (scored line) = Some m.
Proof.
  intros Hout (i & Hi)%list_elem_of_lookup.
  destruct (rfm_scores_lookup _ _ _ _ Hout Hi) as (a & _ & ->).
  destruct (score_row_scores rfm i a) as (r & f & m & HR & HF & HM & _).
  eauto.
Qed.

Lemma length_rfm_scores rfm out :
  rfm_scores rfm = Ok out → length out = length rfm.
Proof.
  intros (_ & Hrows & _)%rfm_scores_Ok_inv.
  rewrite <- (length_fmap scored out), Hrows. apply length_imap.
Qed.
End output.

(** * Main theorems *)

(** ** Aggregation *)







(** C10. With the snapshot one day after the latest timestamp of the whole
    set, every line of the aggregation has a recency of at least one day;
    and a non-empty set does produce lines. *)
Theorem recency_at_least_one (df : list Row) :
  Forall (λ a, 1 <= Recency a) (rfm_table df)
  ∧ (df ≠ [] → rfm_table df ≠ []).
Proof.
  destruct df as [|r0 df0]; [split; [constructor|done]|].
  split.
  - destruct (aggregates_int64_nonempty (r0 :: df0)) as
      (newest & [_ Hnewest] & _ & _ & _ & Hlines); [done|].
    apply Forall_forall. intros a Ha.
    destruct (Hlines a Ha) as (latest & [(r & Hr & Hdate) _] & Hdays & _).
    apply list_elem_of_filter in Hr as [_ Hr].
    pose proof (Hnewest r Hr) as Hle.
    unfold whole_days in Hdays. unfold one_day in *. lia.
  - intros _ Hnil.
    pose proof (rfm_table_keys (r0 :: df0)) as Hkeys.
    rewrite Hnil in Hkeys. symmetry in Hkeys. apply fmap_nil_inv in Hkeys.
    by apply groupby_nil_inv in Hkeys.
Qed.

Lemma recency_at_least_one_witness :
  Forall (λ a, 1 <= Recency a) (rfm_table (three_records 7 100 101 10 20 30 5 6 7))
  ∧ rfm_table (three_records 7 100 101 10 20 30 5 6 7) ≠ [].
Proof.
  destruct (recency_at_least_one (three_records 7 100 101 10 20 30 5 6 7))
    as [Hall Hne].
  split; [exact Hall|]. apply Hne. discriminate.
Defined.

(** ** Ranks *)

Lemma rank_column_ok_any (dim : RfmRow → Z) (rfm : list RfmRow) :
  rank_column_ok dim rfm.
Proof.
  unfold rank_column_ok.
  split; [by rewrite rank_first_Permutation, length_fmap|].
  split; [apply rank_first_NoDup|].
  intros i j a b ri rj Ha Hb Hri Hrj.
  rewrite rank_first_lookup, list_lookup_fmap, Ha in Hri.
  rewrite rank_first_lookup, list_lookup_fmap, Hb in Hrj.
  injection Hri as <-. injection Hrj as <-.
  assert ((dim <$> rfm) !! i = Some (dim a)) as Hi
      by by rewrite list_lookup_fmap, Ha.
  assert ((dim <$> rfm) !! j = Some (dim b)) as Hj
      by by rewrite list_lookup_fmap, Hb.
  split.
  - intros Hlt. apply (rank_at_lt _ _ _ _ _ Hi Hj). by left.
  - intros Heq Hij. apply (rank_at_lt _ _ _ _ _ Hi Hj). by right.
Qed.

(** C2. For every population of N customer lines, each of the three rank
    columns (recency, frequency, monetary) is a rearrangement of 1..N in
    which no rank repeats, also when raw values tie: the ranks follow the
    raw values and tied values are ranked in the order of the lines.  When
    the scoring pass returns, these are the rank columns of its output. *)
Theorem rank_uniqueness (rfm : list RfmRow) :
  rank_column_ok Recency rfm
  ∧ rank_column_ok Frequency rfm
  ∧ rank_column_ok Monetary rfm
  ∧ ∀ out, rfm_scores rfm = Ok out →
      (R_rank ∘ scored) <$> out = rank_first (Recency <$> rfm)
      ∧ (F_rank ∘ scored) <$> out = rank_first (Frequency <$> rfm)
      ∧ (M_rank ∘ scored) <$> out = rank_first (Monetary <$> rfm).
Proof.
  repeat (split; [apply rank_column_ok_any|]).
  intros out (_ & Hrows & _)%rfm_scores_Ok_inv.
  rewrite !list_fmap_compose, Hrows, !fmap_imap, !rank_first_fmap.
  done.
Qed.

Lemma rank_uniqueness_witness :
  rank_first (Monetary <$> tied_lines) ≡ₚ [1; 2; 3]%nat
  ∧ (M_rank ∘ scored) <$> tied_scored = rank_first (Monetary <$> tied_lines).
Proof.
  destruct (rank_uniqueness tied_lines) as (_ & _ & (Hperm & _) & Hout).
  destruct (Hout tied_scored) as (_ & _ & HM); [vm_compute; reflexivity|].
  split; [exact Hperm|exact HM].
Defined.

(** ** Buckets *)

Lemma buckets_even_column (x : list Z) (labels : list Z) :
  NoDup labels → length labels = 5%nat → (2 ≤ length x)%nat →
  buckets_even x labels.
Proof.
  intros Hnd Hlen Hn.
  destruct (bucket_sizes_qcut x labels Hnd Hlen Hn) as (scores & Hq & Hsizes).
  destruct (quintile_sizes_even (length x)) as (Heven & Hfirst & Hall); [lia|].
  exists scores. rewrite Hsizes. done.
Qed.

(** C3, as the code has it.  For every population of N ≥ 2 lines, the five
    buckets of each dimension have sizes that add up to N and differ by at
    most one; each size is N/5 rounded down or up and the first bucket is
    always rounded up, but the other larger buckets are spread out rather
    than packed at the front: six lines give sizes 2,1,1,1,1 and seven
    lines give 2,1,1,1,2. *)
Theorem bucket_sizes_bound (rfm : list RfmRow) :
  (2 ≤ length rfm)%nat →
  buckets_even (Recency <$> rfm) [5; 4; 3; 2; 1]
  ∧ buckets_even (Frequency <$> rfm) [1; 2; 3; 4; 5]
  ∧ buckets_even (Monetary <$> rfm) [1; 2; 3; 4; 5]
  ∧ quintile_sizes 6 = [2; 1; 1; 1; 1]%nat
  ∧ quintile_sizes 7 = [2; 1; 1; 1; 2]%nat.
Proof.
  intros Hn.
  assert (NoDup [5; 4; 3; 2; 1]) as Hdown.
  { apply (NoDup_fmap_2_strong (λ k, 5 - Z.of_nat k) (seq 0 5));
      [intros ?? _ _; lia|apply NoDup_seq]. }
  assert (NoDup [1; 2; 3; 4; 5]) as Hup.
  { apply (NoDup_fmap_2_strong (λ k, 1 + Z.of_nat k) (seq 0 5));
      [intros ?? _ _; lia|apply NoDup_seq]. }
  repeat split; try reflexivity;
    apply buckets_even_column; rewrite ?length_fmap; done.
Qed.

Lemma bucket_sizes_bound_witness :
  buckets_even (Monetary <$> seven_lines) [1; 2; 3; 4; 5].
Proof.
  destruct (bucket_sizes_bound seven_lines) as (_ & _ & HM & _);
    [vm_compute; lia|exact HM].
Defined.

(** C3, as it is worded, fails: with seven monetary values the last bucket
    holds two lines and the second only one, so the larger buckets are not
    the earlier ones. *)
Lemma buckets_extras_first_fails :
  ¬ buckets_extras_first [10; 20; 30; 40; 50; 60; 70] [1; 2; 3; 4; 5].
Proof.
  intros (scores & Hq & _ & Hextra).
  vm_compute in Hq. injection Hq as <-.
  specialize (Hextra 1%nat 4%nat 1%nat 2%nat).
  assert (2 ≤ 1)%nat; [|lia].
  apply Hextra; [lia|reflexivity|reflexivity].
Qed.

(** ** Direction of the scores *)

Lemma score_of_largest (dim : RfmRow → Z) (rfm : list RfmRow) i a
    (labels : list Z) :
  (2 ≤ length rfm)%nat → single_largest dim rfm i a →
  labels !! (quintile (length rfm) (rank_at (dim <$> rfm) i (dim a)) - 1)%nat
  = labels !! 4%nat.
Proof.
  intros Hn [Hi Hmax].
  rewrite (lookup_fmap_largest dim rfm i a Hi Hmax).
  by rewrite quintile_last.
Qed.

Lemma score_of_smallest (dim : RfmRow → Z) (rfm : list RfmRow) i a
    (labels : list Z) :
  single_smallest dim rfm i a →
  labels !! (quintile (length rfm) (rank_at (dim <$> rfm) i (dim a)) - 1)%nat
  = labels !! 0%nat.
Proof.
  intros [Hi Hmin].
  rewrite (lookup_fmap_smallest dim rfm i a Hi Hmin).
  by rewrite quintile_first.
Qed.

(** From two customers on, the scores run the way the labels say: the
    single largest raw value gets 5 for frequency and monetary and 1 for
    recency, the single smallest gets 1 for frequency and monetary and 5 for
    recency. *)
Lemma direction_from_two (rfm : list RfmRow) i a :
  (2 ≤ length rfm)%nat → rfm !! i = Some a →
  ∃ out line,
    rfm_scores rfm = Ok out ∧ out !! i = Some line
    ∧ aggregate (scored line) = a
    ∧ (single_largest Monetary rfm i a → M_Score (scored line) = Some 5)
    ∧ (single_largest Frequency rfm i a → F_Score (scored line) = Some 5)
    ∧ (single_largest Recency rfm i a → R_Score (scored line) = Some 1)
    ∧ (single_smallest Monetary rfm i a → M_Score (scored line) = Some 1)
    ∧ (single_smallest Frequency rfm i a → F_Score (scored line) = Some 1)
    ∧ (single_smallest Recency rfm i a → R_Score (scored line) = Some 5).
Proof.
  intros Hn Ha.
  destruct (rfm_scores_rows rfm Hn) as (out & Hout & _).
  destruct (rfm_scores_line rfm out i a Hout Ha) as (line & Hline & Hscored).
  exists out, line. rewrite Hscored. cbn [score_row aggregate M_Score F_Score R_Score].
  repeat split; try done; intros Hext.
  - by rewrite (score_of_largest Monetary).
  - by rewrite (score_of_largest Frequency).
  - by rewrite (score_of_largest Recency).
  - by rewrite (score_of_smallest Monetary).
  - by rewrite (score_of_smallest Frequency).
  - by rewrite (score_of_smallest Recency).
Qed.

(** C4.  The direction of the scores holds in every population of two
    customers or more; a population of one customer, who then holds the
    single largest value of every dimension, gets no score at all because
    [pd.qcut] raises. *)
Theorem direction_invariant :
  (∀ rfm i a,
     (2 ≤ length rfm)%nat → rfm !! i = Some a →
     ∃ out line,
       rfm_scores rfm = Ok out ∧ out !! i = Some line
       ∧ aggregate (scored line) = a
       ∧ (single_largest Monetary rfm i a → M_Score (scored line) = Some 5)
       ∧ (single_largest Frequency rfm i a → F_Score (scored line) = Some 5)
       ∧ (single_largest Recency rfm i a → R_Score (scored line) = Some 1)
       ∧ (single_smallest Monetary rfm i a → M_Score (scored line) = Some 1)
       ∧ (single_smallest Frequency rfm i a → F_Score (scored line) = Some 1)
       ∧ (single_smallest Recency rfm i a → R_Score (scored line) = Some 5))
  ∧ ∀ a,
      single_largest Monetary [a] 0 a
      ∧ single_largest Recency [a] 0 a
      ∧ rfm_scores [a] = Raise BinEdgesNotUnique.
Proof.
  split; [apply direction_from_two|].
  intros a. split; [|split].
  - split; [done|]. intros [|j] b Hb Hne; [done|]. by destruct j.
  - split; [done|]. intros [|j] b Hb Hne; [done|]. by destruct j.
  - apply rfm_scores_raises. simpl. lia.
Qed.

(** ** Small and empty populations *)

Lemma score_row_in_range (rfm : list RfmRow) i (a : RfmRow) :
  score_in_range (R_Score (score_row rfm i a))
  ∧ score_in_range (F_Score (score_row rfm i a))
  ∧ score_in_range (M_Score (score_row rfm i a)).
Proof.
  destruct (score_row_scores rfm i a) as (r & f & m & HR & HF & HM & ? & ? & ?).
  unfold score_in_range. rewrite HR, HF, HM. eauto 10.
Qed.

(** C6.  With two, three or four customers (indeed with any number from two
    on) the scoring pass returns and gives every customer a score from 1 to
    5 in each dimension; with a single customer it raises instead, in
    [rfm_scores] and so in the whole RFM block. *)
Theorem small_population :
  (∀ rfm,
     (2 ≤ length rfm)%nat →
     ∃ out,
       rfm_scores rfm = Ok out ∧ length out = length rfm
       ∧ Forall (λ line, score_in_range (R_Score (scored line))
                         ∧ score_in_range (F_Score (scored line))
                         ∧ score_in_range (M_Score (scored line))) out)
  ∧ (∀ a, rfm_scores [a] = Raise BinEdgesNotUnique)
  ∧ ∀ r, rfm_analysis [r] = Raise BinEdgesNotUnique.
Proof.
  split; [|split].
  - intros rfm Hn. destruct (rfm_scores_rows rfm Hn) as (out & Hout & _).
    exists out. split; [done|]. split; [by apply length_rfm_scores|].
    apply Forall_forall. intros line (i & Hi)%list_elem_of_lookup.
    destruct (rfm_scores_lookup _ _ _ _ Hout Hi) as (a & _ & ->).
    apply score_row_in_range.
  - intros a. apply rfm_scores_raises. simpl. lia.
  - intros r. unfold rfm_analysis. apply rfm_scores_raises.
    rewrite rfm_table_cons. rewrite length_fmap. simpl.
    unfold add_row. simpl. lia.
Qed.

(** C7.  On an empty selection the four KPIs are 0 (the quotient for the
    average order value is not formed) and the aggregation is empty, but
    the scoring pass raises on the empty table instead of returning an
    empty result. *)
Theorem zero_population :
  total_sales [] = 0
  ∧ total_orders [] = 0
  ∧ total_customers [] = 0
  ∧ avg_order_value [] = 0%Qc
  ∧ rfm_table [] = []
  ∧ rfm_scores [] = Raise BinEdgesNotUnique
  ∧ rfm_analysis [] = Raise BinEdgesNotUnique.
Proof. repeat split. Qed.

(** ** Composite code *)

Lemma composite_of_digits (r f m : Z) :
  1 <= r <= 5 → 1 <= f <= 5 → 1 <= m <= 5 →
  String.length (pretty r ++ pretty f ++ pretty m) = 3%nat.
Proof.
  intros Hr Hf Hm.
  assert (r = 1 ∨ r = 2 ∨ r = 3 ∨ r = 4 ∨ r = 5) as Hr' by lia.
  assert (f = 1 ∨ f = 2 ∨ f = 3 ∨ f = 4 ∨ f = 5) as Hf' by lia.
  assert (m = 1 ∨ m = 2 ∨ m = 3 ∨ m = 4 ∨ m = 5) as Hm' by lia.
  destruct Hr' as [->|[->|[->|[->| ->]]]];
    destruct Hf' as [->|[->|[->|[->| ->]]]];
    destruct Hm' as [->|[->|[->|[->| ->]]]]; reflexivity.
Qed.

(** C8.  On every line the scoring pass returns, the composite code is the
    text of the recency score followed by that of the frequency score and
    that of the monetary score: three characters, "541" for the scores 5, 4
    and 1. *)
Theorem composite_score (rfm : list RfmRow) (out : list SegmentedRow)
    (line : SegmentedRow) :
  rfm_scores rfm = Ok out → line ∈ out →
  ∃ r f m,
    R_Score (scored line) = Some r
    ∧ F_Score (scored line) = Some f
    ∧ M_Score (scored line) = Some m
    ∧ RFM_Score (scored line) = (pretty r ++ pretty f ++ pretty m)%string
    ∧ String.length (RFM_Score (scored line)) = 3%nat
    ∧ (r = 5 → f = 4 → m = 1 → RFM_Score (scored line) = "541"%string).
Proof.
  intros Hout (i & Hi)%list_elem_of_lookup.
  destruct (rfm_scores_lookup _ _ _ _ Hout Hi) as (a & _ & Hline).
  destruct (score_row_scores rfm i a) as (r & f & m & HR & HF & HM & Hr & Hf & Hm).
  assert (RFM_Score (scored line) = (pretty r ++ pretty f ++ pretty m)%string)
    as Hcode.
  { rewrite Hline. cbn [score_row RFM_Score].
    cbn [score_row R_Score F_Score M_Score] in HR, HF, HM.
    by rewrite HR, HF, HM. }
  exists r, f, m. rewrite Hline at 1 2 3. rewrite Hcode.
  repeat split; try done.
  - by apply composite_of_digits.
  - by intros -> -> ->.
Qed.

Lemma composite_score_witness :
  ∃ r f m,
    R_Score (scored seventh_line) = Some r
    ∧ F_Score (scored seventh_line) = Some f
    ∧ M_Score (scored seventh_line) = Some m
    ∧ RFM_Score (scored seventh_line)
      = (pretty r ++ pretty f ++ pretty m)%string
    ∧ String.length (RFM_Score (scored seventh_line)) = 3%nat
    ∧ (r = 5 → f = 4 → m = 1 →
       RFM_Score (scored seventh_line) = "541"%string).
Proof.
  apply (composite_score seven_lines seven_scored).
  - vm_compute. reflexivity.
  - apply list_elem_of_lookup. exists 6%nat. reflexivity.
Defined.

(** ** Segments *)

(** C5.  On a line that holds its three scores, the segment is the label of
    the first of the four rules, taken in order, whose guard holds: Best
    Customers for R, F, M all at least 4; otherwise New Customers for R at
    least 4 and F at most 2; otherwise Loyal Customers for R at most 2 and F
    at least 4; otherwise Others.  Scores 5, 5, 5 give Best Customers, and
    two lines with the same R and F that both miss the first rule get the
    same segment whatever their M. *)
Theorem segment_rule_precedence (row : ScoredRow) (r f m : Z) :
  R_Score row = Some r → F_Score row = Some f → M_Score row = Some m →
  (∃ label,
     first_match segment_rules r f m = Some label ∧ rfm_segment row = Ok label)
  ∧ (r >= 4 ∧ f >= 4 ∧ m >= 4 → rfm_segment row = Ok "Best Customers"%string)
  ∧ (¬ (r >= 4 ∧ f >= 4 ∧ m >= 4) → r >= 4 ∧ f <= 2 →
     rfm_segment row = Ok "New Customers"%string)
  ∧ (¬ (r >= 4 ∧ f >= 4 ∧ m >= 4) → ¬ (r >= 4 ∧ f <= 2) → r <= 2 ∧ f >= 4 →
     rfm_segment row = Ok "Loyal Customers"%string)
  ∧ (¬ (r >= 4 ∧ f >= 4 ∧ m >= 4) → ¬ (r >= 4 ∧ f <= 2) → ¬ (r <= 2 ∧ f >= 4) →
     rfm_segment row = Ok "Others"%string)
  ∧ (r = 5 → f = 5 → m = 5 → rfm_segment row = Ok "Best Customers"%string)
  ∧ ∀ row' m',
      R_Score row' = Some r → F_Score row' = Some f → M_Score row' = Some m' →
      ¬ (r >= 4 ∧ f >= 4 ∧ m >= 4) → ¬ (r >= 4 ∧ f >= 4 ∧ m' >= 4) →
      rfm_segment row' = rfm_segment row.
Proof.
  intros HR HF HM.
  destruct (rfm_segment_first_match row r f m HR HF HM) as (label & Hfirst & Hseg).
  pose proof (first_match_cases r f m label Hfirst) as Hcases.
  split; [eauto|].
  repeat split.
  - intros ?. rewrite Hseg. f_equal. intuition (done || lia).
  - intros ??. rewrite Hseg. f_equal. intuition (done || lia).
  - intros ???. rewrite Hseg. f_equal. intuition (done || lia).
  - intros ???. rewrite Hseg. f_equal. intuition (done || lia).
  - intros -> -> ->. rewrite Hseg. f_equal. intuition (done || lia).
  - intros row' m' HR' HF' HM' Hm Hm'.
    destruct (rfm_segment_first_match row' r f m' HR' HF' HM')
      as (label' & Hfirst' & Hseg').
    pose proof (first_match_cases r f m' label' Hfirst') as Hcases'.
    rewrite Hseg, Hseg'. f_equal.
    destruct Hcases as [?|[?|[?|?]]]; destruct Hcases' as [?|[?|[?|?]]];
      intuition (congruence || lia).
Qed.

(** C9.  A line whose frequency score is 3 is put in Others whatever its
    recency and monetary scores; this is so for every line the scoring pass
    returns. *)
Theorem frequency_three_is_others (row : ScoredRow) (r m : Z) :
  R_Score row = Some r → F_Score row = Some 3 → M_Score row = Some m →
  rfm_segment row = Ok "Others"%string
  ∧ ∀ rfm out line,
      rfm_scores rfm = Ok out → line ∈ out →
      F_Score (scored line) = Some 3 → Segment line = "Others"%string.
Proof.
  intros HR HF HM.
  assert (∀ row' r' m', R_Score row' = Some r' → F_Score row' = Some 3 →
            M_Score row' = Some m' → rfm_segment row' = Ok "Others"%string) as Hgen.
  { intros row' r' m' HR' HF' HM'.
    destruct (rfm_segment_first_match row' r' 3 m' HR' HF' HM')
      as (label & Hfirst & Hseg).
    rewrite Hseg. f_equal.
    destruct (first_match_cases _ _ _ _ Hfirst) as [?|[?|[?|?]]];
      intuition (done || lia). }
  split; [by eapply Hgen|].
  intros rfm out line Hout Hline HF3.
  pose proof (rfm_scores_Ok_inv _ _ Hout) as (_ & _ & Hsegs).
  eapply Forall_forall in Hsegs; [|exact Hline].
  destruct (returned_scores_present rfm out line Hout Hline) as (r' & m' & HR' & HM').
  rewrite (Hgen _ r' m' HR' HF3 HM') in Hsegs. by injection Hsegs.
Qed.

Lemma segment_rule_precedence_witness :
  rfm_segment (row_with_scores 5 5 5) = Ok "Best Customers"%string
  ∧ rfm_segment (row_with_scores 5 1 5) = Ok "New Customers"%string.
Proof.
  split.
  - destruct (segment_rule_precedence (row_with_scores 5 5 5) 5 5 5)
      as (_ & _ & _ & _ & _ & Hbest & _); [reflexivity..|].
    by apply Hbest.
  - destruct (segment_rule_precedence (row_with_scores 5 1 5) 5 1 5)
      as (_ & _ & Hnew & _); [reflexivity..|].
    apply Hnew; lia.
Defined.

Lemma frequency_three_is_others_witness :
  rfm_segment (row_with_scores 5 3 5) = Ok "Others"%string.
Proof.
  destruct (frequency_three_is_others (row_with_scores 5 3 5) 5 5)
    as [Hothers _]; [reflexivity..|].
  exact Hothers.
Defined.

(** ** Worked examples *)

(** Six customers with monetary values 10 to 60: the two smallest share
    the first bucket and score 1, the largest scores 5. *)
Example six_lines_monetary_scores :
  qcut (rank_values (Monetary <$> six_lines)) 5 [1; 2; 3; 4; 5]
  = Ok [Some 1; Some 1; Some 2; Some 3; Some 4; Some 5].
Proof. vm_compute. reflexivity. Qed.

(** Tied raw values still get distinct ranks, in frame order. *)
Example tied_values_ranks : rank_first [3; 1; 3; 2; 1] = [4; 1; 5; 3; 2]%nat.
Proof. vm_compute. reflexivity. Qed.

(** A single customer: the whole RFM block raises. *)
Example one_customer_raises :
  rfm_analysis [ {| Invoice_Number := 1; Invoice_Date := 100;
                    Customer_ID := 7; Amount := 10 |} ]
  = Raise BinEdgesNotUnique.
Proof. vm_compute. reflexivity. Qed.

(** The average order value is a rounded quotient: 29 over 7 orders gives
    the float [4.142857142857143], which is not a seventh of 29. *)
Example average_is_rounded :
  total_sales seven_orders = 29 ∧ total_orders seven_orders = 7
  ∧ avg_order_value seven_orders = Q2Qc (4664442471205157 # 1125899906842624)
  ∧ (avg_order_value seven_orders * Q2Qc 7 ≠ Q2Qc 29)%Qc.
Proof.
  split; [by vm_compute|]. split; [by vm_compute|].
  assert (avg_order_value seven_orders = Q2Qc (4664442471205157 # 1125899906842624))
    as Havg by (apply Qc_is_canon; vm_compute; reflexivity).
  split; [exact Havg|].
  rewrite Havg. intros Heq. apply (f_equal this) in Heq.
  vm_compute in Heq. discriminate.
Qed.

(** * Further properties of the script *)

(** ** The KPIs and the aggregation together *)

Section kpis.
Implicit Types (r : Row) (g : Group) (gs : list Group) (df : list Row) (x : list Z).

Lemma nunique_Permutation x y : x ≡ₚ y → nunique x = nunique y.
Proof.
  intros Hxy. unfold nunique. do 2 f_equal.
  apply set_eq. intros v. rewrite !elem_of_list_to_set. by rewrite Hxy.
Qed.

Lemma nunique_nonneg x : 0 ≤ nunique x.
Proof. unfold nunique. lia. Qed.

Lemma nunique_cons_pos v x : 1 ≤ nunique (v :: x).
Proof.
  unfold nunique.
  assert (size (list_to_set (v :: x) : gset Z) ≠ 0%nat); [|lia].
  apply size_non_empty_iff. intros Hempty.
  assert (v ∈ (list_to_set (v :: x) : gset Z)) as Hv
      by (apply elem_of_list_to_set, list_elem_of_here).
  rewrite Hempty in Hv. by apply not_elem_of_empty in Hv.
Qed.

Lemma nunique_le_length x : nunique x ≤ Z.of_nat (length x).
Proof.
  unfold nunique. apply inj_le.
  induction x as [|v x IH]; [done|].
  rewrite list_to_set_cons, size_union_alt, size_singleton. simpl.
  assert (size (list_to_set x ∖ {[v]} : gset Z) ≤ size (list_to_set x : gset Z))%nat.
  { apply subseteq_size. intros w Hw. by apply elem_of_difference in Hw as [Hw _]. }
  lia.
Qed.

Lemma nunique_subset x y : (∀ v, v ∈ x → v ∈ y) → nunique x ≤ nunique y.
Proof.
  intros Hsub. unfold nunique. apply inj_le, subseteq_size.
  intros v. rewrite !elem_of_list_to_set. apply Hsub.
Qed.

End kpis.

(** X2.  The aggregation has as many lines as the total customers KPI
    counts, and the lines come in strictly increasing order of customer
    id. *)
Theorem lines_are_customers (df : list Row) :
  Z.of_nat (length (rfm_table df)) = total_customers df
  ∧ StronglySorted Z.lt (rfm_Customer_ID <$> rfm_table df).
Proof.
  split.
  - rewrite <- (length_fmap rfm_Customer_ID), rfm_table_keys.
    symmetry. apply nunique_enum; [apply groupby_NoDup|].
    intros c. apply groupby_keys.
  - rewrite rfm_table_keys. apply groupby_sorted.
Qed.

(** X4.  Every customer line has a frequency of at least 1, at most the
    number of rows of that customer and at most the total orders KPI. *)
Theorem frequency_bounds (df : list Row) (a : RfmRow) :
  a ∈ rfm_table df →
  1 ≤ Frequency a
  ∧ Frequency a ≤ Z.of_nat (length (records_of (rfm_Customer_ID a) df))
  ∧ Frequency a ≤ total_orders df.
Proof.
  intros Ha. destruct df as [|r0 df0]; [by apply elem_of_nil in Ha|].
  rewrite rfm_table_cons in Ha.
  apply list_elem_of_fmap in Ha as (g & -> & Hg).
  pose proof (groupby_rows _ g Hg) as Hrows.
  cbn [agg Frequency rfm_Customer_ID]. unfold records_of. rewrite <- Hrows.
  split; [|split].
  - unfold rows. rewrite fmap_cons. apply nunique_cons_pos.
  - rewrite <- (length_fmap Invoice_Number). apply nunique_le_length.
  - unfold total_orders. apply nunique_subset.
    intros o (r & -> & Hr)%list_elem_of_fmap.
    apply list_elem_of_fmap_2. rewrite Hrows in Hr.
    by apply list_elem_of_filter in Hr as [_ Hr].
Qed.

Lemma frequency_bounds_witness :
  1 ≤ 2
  ∧ 2 ≤ Z.of_nat (length (records_of 7 (three_records 7 100 101 10 20 30 5 6 7)))
  ∧ 2 ≤ total_orders (three_records 7 100 101 10 20 30 5 6 7).
Proof.
  apply (frequency_bounds (three_records 7 100 101 10 20 30 5 6 7)
           {| rfm_Customer_ID := 7; Recency := 1; Frequency := 2; Monetary := 18 |}).
  vm_compute. apply list_elem_of_here.
Defined.

(** X5.  On a selection with at least one row some customer line has
    recency exactly 1: the customer of the latest row. *)
Theorem latest_customer_recency (df : list Row) :
  df ≠ [] → ∃ a, a ∈ rfm_table df ∧ Recency a = 1.
Proof.
  intros Hdf.
  destruct (aggregates_int64_nonempty df Hdf) as
    (newest & [(r & Hr & Hdate) Hnewest] & _ & _ & Hkeys & Hlines).
  assert (Customer_ID r ∈ rfm_Customer_ID <$> rfm_table df) as Hc.
  { apply Hkeys. by apply list_elem_of_fmap_2. }
  apply list_elem_of_fmap in Hc as (a & Hca & Ha).
  exists a. split; [done|].
  destruct (Hlines a Ha) as (latest & [(r' & Hr' & Hdate') Hlatest] & Hdays & _).
  assert (r ∈ records_of (rfm_Customer_ID a) df) as Hrin.
  { apply list_elem_of_filter. by split. }
  pose proof (Hlatest r Hrin) as Hle.
  apply list_elem_of_filter in Hr' as [_ Hr'].
  pose proof (Hnewest r' Hr') as Hle'.
  unfold whole_days in Hdays. unfold one_day in *. lia.
Qed.

Lemma latest_customer_recency_witness :
  ∃ a, a ∈ rfm_table (three_records 7 100 101 10 20 30 5 6 7) ∧ Recency a = 1.
Proof. apply latest_customer_recency. discriminate. Defined.

(** ** The order of the rows *)

Section row_order.
Implicit Types (df : list Row) (x y : list Z).

Lemma series_max_Permutation x y : x ≡ₚ y → series_max x = series_max y.
Proof.
  intros Hxy. destruct x as [|v x], y as [|w y].
  - done.
  - by apply Permutation_nil_l in Hxy.
  - by apply Permutation_nil_r in Hxy.
  - simpl. f_equal.
    pose proof (max_from_elem v x) as Hin. rewrite Hxy in Hin.
    pose proof (max_from_elem w y) as Hin'. rewrite <- Hxy in Hin'.
    assert (∀ u, u ∈ v :: x → u ≤ max_from v x) as Hup.
    { intros u [->|Hu]%elem_of_cons;
        [apply max_from_lower|by apply max_from_upper]. }
    assert (∀ u, u ∈ w :: y → u ≤ max_from w y) as Hup'.
    { intros u [->|Hu]%elem_of_cons;
        [apply max_from_lower|by apply max_from_upper]. }
    specialize (Hup _ Hin'). specialize (Hup' _ Hin). lia.
Qed.

Lemma snapshot_date_Permutation df df' :
  df ≡ₚ df' → snapshot_date df = snapshot_date df'.
Proof.
  intros Hdf. unfold snapshot_date.
  by rewrite (series_max_Permutation (Invoice_Date <$> df) (Invoice_Date <$> df'))
    by by rewrite Hdf.
Qed.

Lemma groupby_keys_Permutation df df' :
  df ≡ₚ df' → key <$> groupby df = key <$> groupby df'.
Proof.
  intros Hdf. apply (StronglySorted_unique_strong Z.lt).
  - intros ?? _ _ ??. lia.
  - apply groupby_sorted.
  - apply groupby_sorted.
  - apply NoDup_Permutation; [apply groupby_NoDup..|].
    intros c. rewrite !groupby_keys. by rewrite Hdf.
Qed.

Lemma rfm_table_customer_line df :
  rfm_table df = customer_line df <$> (key <$> groupby df).
Proof.
  destruct df as [|r0 df0]; [done|].
  rewrite rfm_table_cons, <- list_fmap_compose.
  apply list_fmap_ext. intros i g Hg%list_elem_of_lookup_2.
  pose proof (groupby_rows _ g Hg) as Hrows.
  unfold customer_line, agg. cbn [compose]. unfold records_of.
  rewrite <- Hrows, snapshot_date_cons. done.
Qed.

(** The dated part of a customer's line does not depend on the order of
    the rows. *)
Lemma customer_line_Permutation df df' c :
  df ≡ₚ df' →
  Recency (customer_line df c) = Recency (customer_line df' c)
  ∧ Frequency (customer_line df c) = Frequency (customer_line df' c).
Proof.
  intros Hdf. unfold customer_line. cbn [Recency Frequency].
  assert (records_of c df ≡ₚ records_of c df') as Hrec
    by (unfold records_of; by rewrite Hdf).
  rewrite (snapshot_date_Permutation df df' Hdf).
  rewrite (series_max_Permutation (Invoice_Date <$> records_of c df)
             (Invoice_Date <$> records_of c df')) by by rewrite Hrec.
  rewrite (nunique_Permutation (Invoice_Number <$> records_of c df)
             (Invoice_Number <$> records_of c df')) by by rewrite Hrec.
  done.
Qed.
End row_order.

Lemma lines_of_customers_count (df : list Row) :
  Z.of_nat (length (rfm_table df)) = total_customers df.
Proof.
  rewrite <- (length_fmap rfm_Customer_ID), rfm_table_keys.
  symmetry. apply nunique_enum; [apply groupby_NoDup|].
  intros c. apply groupby_keys.
Qed.

(** X6.  The order of the rows of the selection does not decide who is in
    the RFM table, nor any recency or frequency: a reordered selection gives
    the same customers in the same order, each with the same Recency and
    Frequency, and the same order and customer counts. *)
Theorem row_order_irrelevant (df df' : list Row) :
  df ≡ₚ df' →
  (λ a, (rfm_Customer_ID a, Recency a, Frequency a)) <$> rfm_table df
  = (λ a, (rfm_Customer_ID a, Recency a, Frequency a)) <$> rfm_table df'
  ∧ total_orders df = total_orders df'
  ∧ total_customers df = total_customers df'.
Proof.
  intros Hdf.
  split; [|split; apply nunique_Permutation; by rewrite Hdf].
  rewrite !rfm_table_customer_line, (groupby_keys_Permutation df df' Hdf).
  rewrite <- !list_fmap_compose.
  apply list_fmap_ext. intros i g _. cbn [compose].
  destruct (customer_line_Permutation df df' (key g) Hdf) as [-> ->]. done.
Qed.

Lemma row_order_irrelevant_witness :
  (λ a, (rfm_Customer_ID a, Recency a, Frequency a))
    <$> rfm_table (reverse (three_records 7 100 101 10 20 30 5 6 7))
  = (λ a, (rfm_Customer_ID a, Recency a, Frequency a))
    <$> rfm_table (three_records 7 100 101 10 20 30 5 6 7)
  ∧ total_orders (reverse (three_records 7 100 101 10 20 30 5 6 7))
    = total_orders (three_records 7 100 101 10 20 30 5 6 7)
  ∧ total_customers (reverse (three_records 7 100 101 10 20 30 5 6 7))
    = total_customers (three_records 7 100 101 10 20 30 5 6 7).
Proof.
  apply (row_order_irrelevant (reverse (three_records 7 100 101 10 20 30 5 6 7))
           (three_records 7 100 101 10 20 30 5 6 7)).
  apply reverse_Permutation.
Defined.

(** ** Scores and raw values *)

Section score_order.
Implicit Types (rfm : list RfmRow) (n r : nat).

Lemma quintile_mono n r r' : (r ≤ r')%nat → (quintile n r ≤ quintile n r')%nat.
Proof. intros Hr. unfold quintile. repeat case_decide; lia. Qed.

Lemma labels_up_lookup (q : nat) :
  (1 ≤ q ≤ 5)%nat → [1; 2; 3; 4; 5] !! (q - 1)%nat = Some (Z.of_nat q).
Proof. intros Hq. do 6 (destruct q as [|q]; [done || lia|]). lia. Qed.

Lemma labels_down_lookup (q : nat) :
  (1 ≤ q ≤ 5)%nat → [5; 4; 3; 2; 1] !! (q - 1)%nat = Some (6 - Z.of_nat q).
Proof. intros Hq. do 6 (destruct q as [|q]; [done || lia|]). lia. Qed.

Lemma score_row_fields rfm i (a : RfmRow) :
  R_Score (score_row rfm i a)
  = Some (6 - Z.of_nat (quintile (length rfm) (rank_at (Recency <$> rfm) i (Recency a))))
  ∧ F_Score (score_row rfm i a)
    = Some (Z.of_nat (quintile (length rfm) (rank_at (Frequency <$> rfm) i (Frequency a))))
  ∧ M_Score (score_row rfm i a)
    = Some (Z.of_nat (quintile (length rfm) (rank_at (Monetary <$> rfm) i (Monetary a)))).
Proof.
  cbn [score_row R_Score F_Score M_Score].
  rewrite labels_down_lookup, !labels_up_lookup by apply quintile_range. done.
Qed.

Lemma rank_at_fmap_lt {A} (dim : A → Z) (l : list A) i j a b :
  l !! i = Some a → l !! j = Some b → dim a < dim b →
  (rank_at (dim <$> l) i (dim a) < rank_at (dim <$> l) j (dim b))%nat.
Proof.
  intros Ha Hb Hlt. apply rank_at_lt; [| |by left].
  - by rewrite list_lookup_fmap, Ha.
  - by rewrite list_lookup_fmap, Hb.
Qed.
End score_order.

(** X7.  The scores follow the raw values: of two returned lines, the one
    with the smaller monetary value never has the larger monetary score, the
    same for frequency, and the one with the smaller recency never has the
    smaller recency score. *)
Theorem scores_follow_values (rfm : list RfmRow) (out : list SegmentedRow)
    (i j : nat) (li lj : SegmentedRow) :
  rfm_scores rfm = Ok out → out !! i = Some li → out !! j = Some lj →
  ∃ ri fi mi rj fj mj,
    R_Score (scored li) = Some ri ∧ F_Score (scored li) = Some fi
    ∧ M_Score (scored li) = Some mi
    ∧ R_Score (scored lj) = Some rj ∧ F_Score (scored lj) = Some fj
    ∧ M_Score (scored lj) = Some mj
    ∧ (Monetary (aggregate (scored li)) < Monetary (aggregate (scored lj)) → mi ≤ mj)
    ∧ (Frequency (aggregate (scored li)) < Frequency (aggregate (scored lj)) → fi ≤ fj)
    ∧ (Recency (aggregate (scored li)) < Recency (aggregate (scored lj)) → rj ≤ ri).
Proof.
  intros Hout Hi Hj.
  destruct (rfm_scores_lookup _ _ _ _ Hout Hi) as (a & Ha & Hli).
  destruct (rfm_scores_lookup _ _ _ _ Hout Hj) as (b & Hb & Hlj).
  destruct (score_row_fields rfm i a) as (HRi & HFi & HMi).
  destruct (score_row_fields rfm j b) as (HRj & HFj & HMj).
  rewrite Hli, Hlj. do 6 eexists.
  repeat (split; [eassumption|]).
  cbn [score_row aggregate].
  repeat split; intros Hlt.
  - pose proof (rank_at_fmap_lt Monetary rfm i j a b Ha Hb Hlt) as Hrank.
    apply inj_le, quintile_mono. lia.
  - pose proof (rank_at_fmap_lt Frequency rfm i j a b Ha Hb Hlt) as Hrank.
    apply inj_le, quintile_mono. lia.
  - pose proof (rank_at_fmap_lt Recency rfm i j a b Ha Hb Hlt) as Hrank.
    assert (quintile (length rfm) (rank_at (Recency <$> rfm) i (Recency a))
            ≤ quintile (length rfm) (rank_at (Recency <$> rfm) j (Recency b)))%nat
      by (apply quintile_mono; lia).
    lia.
Qed.

Lemma scores_follow_values_witness :
  ∃ ri fi mi rj fj mj,
    R_Score (scored first_line) = Some ri ∧ F_Score (scored first_line) = Some fi
    ∧ M_Score (scored first_line) = Some mi
    ∧ R_Score (scored seventh_line) = Some rj ∧ F_Score (scored seventh_line) = Some fj
    ∧ M_Score (scored seventh_line) = Some mj
    ∧ (Monetary (aggregate (scored first_line))
       < Monetary (aggregate (scored seventh_line)) → mi ≤ mj)
    ∧ (Frequency (aggregate (scored first_line))
       < Frequency (aggregate (scored seventh_line)) → fi ≤ fj)
    ∧ (Recency (aggregate (scored first_line))
       < Recency (aggregate (scored seventh_line)) → rj ≤ ri).
Proof.
  apply (scores_follow_values seven_lines seven_scored 0 6 first_line seventh_line);
    vm_compute; reflexivity.
Defined.

(** X8.  The scoring pass returns the customer lines it was given, in the
    same order and number, each with its ranks and scores added. *)
Theorem scoring_keeps_lines (rfm : list RfmRow) (out : list SegmentedRow) :
  rfm_scores rfm = Ok out →
  (aggregate ∘ scored) <$> out = rfm ∧ length out = length rfm.
Proof.
  intros Hout. split; [|by apply length_rfm_scores].
  pose proof (rfm_scores_Ok_inv _ _ Hout) as (_ & Hrows & _).
  rewrite list_fmap_compose, Hrows, fmap_imap.
  change (λ n : nat, aggregate ∘ score_row rfm n) with (@const (RfmRow → RfmRow) nat id).
  rewrite imap_const. apply list_fmap_id.
Qed.

Lemma scoring_keeps_lines_witness :
  (aggregate ∘ scored) <$> seven_scored = seven_lines
  ∧ length seven_scored = length seven_lines.
Proof. apply scoring_keeps_lines. vm_compute. reflexivity. Defined.

(** X9.  The RFM block raises exactly when the selection has fewer than two
    distinct customers, and the only exception it raises is the one of
    [pd.qcut]; [rfm_segment] never raises on the lines the block builds. *)
Theorem rfm_block_raises_iff (df : list Row) (e : exn) :
  rfm_analysis df = Raise e ↔ total_customers df < 2 ∧ e = BinEdgesNotUnique.
Proof.
  pose proof (lines_of_customers_count df) as Hcount.
  unfold rfm_analysis. split.
  - intros Hraise.
    destruct (decide (2 ≤ length (rfm_table df))%nat) as [Hn|Hn].
    + destruct (rfm_scores_rows _ Hn) as (out & Hout & _). congruence.
    + rewrite rfm_scores_raises in Hraise by lia.
      injection Hraise as <-. split; [lia|done].
  - intros [Hn ->]. apply rfm_scores_raises. lia.
Qed.

(** ** Which scores are given *)

Section given_scores.
Implicit Types (rfm : list RfmRow) (out : list SegmentedRow) (n k r : nat).

Lemma quintile_onto n k :
  (5 ≤ n)%nat → (1 ≤ k ≤ 5)%nat → ∃ r, (1 ≤ r ≤ n)%nat ∧ quintile n r = k.
Proof.
  intros Hn Hk. exists (bucket_end n k).
  pose proof (bucket_end_le n k ltac:(lia) ltac:(lia)) as Hle.
  assert (bucket_end n (k - 1) < bucket_end n k)%nat as Hlt.
  { unfold bucket_end.
    pose proof (Nat.div_mod_eq (1 * (n - 1)) 5).
    pose proof (Nat.mod_upper_bound (1 * (n - 1)) 5).
    pose proof (Nat.div_mod_eq (2 * (n - 1)) 5).
    pose proof (Nat.mod_upper_bound (2 * (n - 1)) 5).
    pose proof (Nat.div_mod_eq (3 * (n - 1)) 5).
    pose proof (Nat.mod_upper_bound (3 * (n - 1)) 5).
    pose proof (Nat.div_mod_eq (4 * (n - 1)) 5).
    pose proof (Nat.mod_upper_bound (4 * (n - 1)) 5).
    pose proof (Nat.div_mod_eq (5 * (n - 1)) 5).
    pose proof (Nat.mod_upper_bound (5 * (n - 1)) 5).
    destruct k as [|[|[|[|[|[|k]]]]]]; try lia; simpl (_ - 1)%nat; cbv iota; lia. }
  split; [lia|]. apply quintile_bucket; lia.
Qed.

Lemma line_with_quintile (dim : RfmRow → Z) rfm out k :
  rfm_scores rfm = Ok out → (5 ≤ length rfm)%nat → (1 ≤ k ≤ 5)%nat →
  ∃ j a line,
    out !! j = Some line ∧ scored line = score_row rfm j a
    ∧ quintile (length rfm) (rank_at (dim <$> rfm) j (dim a)) = k.
Proof.
  intros Hout Hn Hk.
  destruct (quintile_onto (length rfm) k Hn Hk) as (r & Hr & Hq).
  destruct (rank_first_hits (dim <$> rfm) r) as (j & w & Hj & Hrank);
    [by rewrite length_fmap|].
  rewrite list_lookup_fmap in Hj.
  destruct (rfm !! j) as [a|] eqn:Ha; [|done]. injection Hj as <-.
  destruct (rfm_scores_line rfm out j a Hout Ha) as (line & Hline & Hscored).
  exists j, a, line. by rewrite Hrank.
Qed.

Lemma count_none {A} (P : A → Prop) `{!∀ a, Decision (P a)} (l : list A) :
  (∀ a, a ∈ l → ¬ P a) → length (filter P l) = 0%nat.
Proof.
  induction l as [|a l IH]; intros Hnone; [done|].
  rewrite length_filter_cons, IH, decide_False; [done| |].
  - apply Hnone, list_elem_of_here.
  - intros b Hb. by apply Hnone, list_elem_of_further.
Qed.

Lemma count_all {A} (P : A → Prop) `{!∀ a, Decision (P a)} (l : list A) :
  (∀ a, a ∈ l → P a) → length (filter P l) = length l.
Proof.
  induction l as [|a l IH]; intros Hall; [done|].
  rewrite length_filter_cons, IH, decide_True; [done| |].
  - apply Hall, list_elem_of_here.
  - intros b Hb. by apply Hall, list_elem_of_further.
Qed.

(** Among equal values the ranks are the positions. *)
Lemma rank_at_all_equal (x : list Z) i v :
  x !! i = Some v → (∀ w, w ∈ x → w = v) → rank_at x i v = S i.
Proof.
  intros Hi Hall. unfold rank_at. f_equal.
  rewrite count_none by (intros w Hw; specialize (Hall w Hw); lia).
  rewrite count_all.
  - apply length_take_le. apply lookup_lt_Some in Hi. lia.
  - intros w Hw. apply Hall. by apply (subseteq_take i x).
Qed.
End given_scores.

(** X10.  With five customers or more every score from 1 to 5 is given to
    at least one customer in each of the three dimensions. *)
Theorem every_score_given (rfm : list RfmRow) (out : list SegmentedRow) (s : Z) :
  rfm_scores rfm = Ok out → (5 ≤ length rfm)%nat → 1 ≤ s ≤ 5 →
  (∃ line, line ∈ out ∧ R_Score (scored line) = Some s)
  ∧ (∃ line, line ∈ out ∧ F_Score (scored line) = Some s)
  ∧ (∃ line, line ∈ out ∧ M_Score (scored line) = Some s).
Proof.
  intros Hout Hn Hs.
  split; [|split].
  - destruct (line_with_quintile Recency rfm out (Z.to_nat (6 - s)) Hout Hn)
      as (j & a & line & Hline & Hscored & Hq); [lia|].
    exists line. split; [by eapply list_elem_of_lookup_2|].
    destruct (score_row_fields rfm j a) as (HR & _ & _).
    rewrite Hscored, HR, Hq. f_equal. lia.
  - destruct (line_with_quintile Frequency rfm out (Z.to_nat s) Hout Hn)
      as (j & a & line & Hline & Hscored & Hq); [lia|].
    exists line. split; [by eapply list_elem_of_lookup_2|].
    destruct (score_row_fields rfm j a) as (_ & HF & _).
    rewrite Hscored, HF, Hq. f_equal. lia.
  - destruct (line_with_quintile Monetary rfm out (Z.to_nat s) Hout Hn)
      as (j & a & line & Hline & Hscored & Hq); [lia|].
    exists line. split; [by eapply list_elem_of_lookup_2|].
    destruct (score_row_fields rfm j a) as (_ & _ & HM).
    rewrite Hscored, HM, Hq. f_equal. lia.
Qed.

Lemma every_score_given_witness :
  (∃ line, line ∈ seven_scored ∧ R_Score (scored line) = Some 3)
  ∧ (∃ line, line ∈ seven_scored ∧ F_Score (scored line) = Some 3)
  ∧ (∃ line, line ∈ seven_scored ∧ M_Score (scored line) = Some 3).
Proof.
  apply (every_score_given seven_lines seven_scored 3);
    [vm_compute; reflexivity|vm_compute; lia|lia].
Defined.

(** X11.  When all customers have the same monetary value, the scores are
    dealt by position alone: the first line gets monetary score 1 and the
    last line gets 5 (likewise for frequency; for recency the first line
    gets 5 and the last 1). *)
Theorem equal_values_scored_by_position (rfm : list RfmRow)
    (out : list SegmentedRow) :
  rfm_scores rfm = Ok out →
  ∃ first last,
    out !! 0%nat = Some first ∧ out !! (length rfm - 1)%nat = Some last
    ∧ ((∀ a b, a ∈ rfm → b ∈ rfm → Monetary a = Monetary b) →
       M_Score (scored first) = Some 1 ∧ M_Score (scored last) = Some 5)
    ∧ ((∀ a b, a ∈ rfm → b ∈ rfm → Frequency a = Frequency b) →
       F_Score (scored first) = Some 1 ∧ F_Score (scored last) = Some 5)
    ∧ ((∀ a b, a ∈ rfm → b ∈ rfm → Recency a = Recency b) →
       R_Score (scored first) = Some 5 ∧ R_Score (scored last) = Some 1).
Proof.
  intros Hout.
  pose proof (rfm_scores_Ok_inv _ _ Hout) as (Hn & _ & _).
  destruct (rfm !! 0%nat) as [a|] eqn:Ha;
    [|apply lookup_ge_None in Ha; lia].
  destruct (rfm !! (length rfm - 1)%nat) as [b|] eqn:Hb;
    [|apply lookup_ge_None in Hb; lia].
  destruct (rfm_scores_line rfm out _ a Hout Ha) as (first & Hfirst & Hsf).
  destruct (rfm_scores_line rfm out _ b Hout Hb) as (last & Hlast & Hsl).
  exists first, last. split; [done|]. split; [done|].
  destruct (score_row_fields rfm 0 a) as (HRa & HFa & HMa).
  destruct (score_row_fields rfm (length rfm - 1) b) as (HRb & HFb & HMb).
  assert (∀ (dim : RfmRow → Z),
            (∀ a b, a ∈ rfm → b ∈ rfm → dim a = dim b) →
            rank_at (dim <$> rfm) 0 (dim a) = 1%nat
            ∧ rank_at (dim <$> rfm) (length rfm - 1) (dim b) = length rfm) as Hranks.
  { intros dim Heq. split.
    - apply rank_at_all_equal; [by rewrite list_lookup_fmap, Ha|].
      intros w (c & -> & Hc)%list_elem_of_fmap.
      apply Heq; [done|by eapply list_elem_of_lookup_2].
    - rewrite rank_at_all_equal; [lia|by rewrite list_lookup_fmap, Hb|].
      intros w (c & -> & Hc)%list_elem_of_fmap.
      apply Heq; [done|by eapply list_elem_of_lookup_2]. }
  rewrite Hsf, Hsl, HRa, HFa, HMa, HRb, HFb, HMb.
  split; [|split]; intros Heq; destruct (Hranks _ Heq) as [-> ->];
    rewrite ?quintile_first, ?quintile_last by done; done.
Qed.

Lemma equal_values_scored_by_position_witness :
  ∃ first last,
    same_spenders_scored !! 0%nat = Some first
    ∧ same_spenders_scored !! 2%nat = Some last
    ∧ M_Score (scored first) = Some 1 ∧ M_Score (scored last) = Some 5.
Proof.
  destruct (equal_values_scored_by_position same_spenders same_spenders_scored)
    as (first & last & Hfirst & Hlast & HM & _); [vm_compute; reflexivity|].
  exists first, last. split; [exact Hfirst|]. split; [exact Hlast|].
  apply HM. intros a b Ha Hb.
  repeat (apply elem_of_cons in Ha as [->|Ha]);
    repeat (apply elem_of_cons in Hb as [->|Hb]);
    try reflexivity; by apply elem_of_nil in Ha || by apply elem_of_nil in Hb.
Defined.

(** ** Ranks and the size of the raw values *)

Lemma rank_at_increasing (f : Z → Z) (x : list Z) i v :
  (∀ u w, u < w → f u < f w) →
  rank_at (f <$> x) i (f v) = rank_at x i v.
Proof.
  intros Hf.
  assert (∀ u w, f u < f w ↔ u < w) as Hlt.
  { intros u w. split; [|apply Hf]. intros Hfu.
    destruct (Z.lt_trichotomy u w) as [?|[->|Hgt%Hf]]; [done|lia|lia]. }
  assert (∀ u w, f u = f w ↔ u = w) as Heq.
  { intros u w. split; [|by intros ->]. intros Hfu.
    destruct (Z.lt_trichotomy u w) as [Hl%Hf|[?|Hg%Hf]]; [lia|done|lia]. }
  unfold rank_at. rewrite <- fmap_take, !filter_fmap_length.
  f_equal. f_equal.
  - f_equal. apply filter_ext_in. intros w _. apply Hlt.
  - f_equal. apply filter_ext_in. intros w _. apply Heq.
Qed.

(** X12.  Ranks and scores depend on the order of the raw values only:
    a strictly increasing change of the values of a column (another
    currency, another time unit) leaves its ranks and its scores as they
    are. *)
Theorem scores_depend_on_order_only (f : Z → Z) (x : list Z) (labels : list Z) :
  (∀ u w, u < w → f u < f w) →
  rank_first (f <$> x) = rank_first x
  ∧ qcut (rank_values (f <$> x)) 5 labels = qcut (rank_values x) 5 labels.
Proof.
  intros Hf.
  assert (rank_first (f <$> x) = rank_first x) as Hranks.
  { rewrite rank_first_fmap. unfold rank_first.
    apply imap_ext. intros i v _. by apply rank_at_increasing. }
  split; [done|]. unfold rank_values. by rewrite Hranks.
Qed.

Lemma scores_depend_on_order_only_witness :
  rank_first ((λ v, 100 * v + 7) <$> [30; 10; 30; 20]) = rank_first [30; 10; 30; 20]
  ∧ qcut (rank_values ((λ v, 100 * v + 7) <$> [30; 10; 30; 20])) 5 [1; 2; 3; 4; 5]
    = qcut (rank_values [30; 10; 30; 20]) 5 [1; 2; 3; 4; 5].
Proof. apply scores_depend_on_order_only. intros u w Huw. lia. Defined.

(** ** More on the segment rule *)

(** X13.  On a line that holds its three scores the guards of the three
    named segments exclude one another, so each segment is given exactly
    when its own guard holds, whatever the order of the rules; Others is
    given exactly when none holds. *)
Theorem segment_guards_exclusive (row : ScoredRow) (r f m : Z) :
  R_Score row = Some r → F_Score row = Some f → M_Score row = Some m →
  (rfm_segment row = Ok "Best Customers"%string ↔ r >= 4 ∧ f >= 4 ∧ m >= 4)
  ∧ (rfm_segment row = Ok "New Customers"%string ↔ r >= 4 ∧ f <= 2)
  ∧ (rfm_segment row = Ok "Loyal Customers"%string ↔ r <= 2 ∧ f >= 4)
  ∧ (rfm_segment row = Ok "Others"%string
     ↔ ¬ (r >= 4 ∧ f >= 4 ∧ m >= 4) ∧ ¬ (r >= 4 ∧ f <= 2) ∧ ¬ (r <= 2 ∧ f >= 4)).
Proof.
  intros HR HF HM.
  destruct (rfm_segment_first_match row r f m HR HF HM) as (label & Hfirst & ->).
  destruct (first_match_cases r f m label Hfirst)
    as [(?&?&?&->)|[(?&?&?&->)|[(?&?&?&?&->)|(?&?&?&->)]]];
    repeat split; intros; try discriminate; try lia; try done.
Qed.

Lemma segment_guards_exclusive_witness :
  rfm_segment (row_with_scores 1 5 3) = Ok "Loyal Customers"%string.
Proof.
  destruct (segment_guards_exclusive (row_with_scores 1 5 3) 1 5 3)
    as (_ & _ & Hloyal & _); [reflexivity..|].
  apply Hloyal. lia.
Defined.

(** X14.  [rfm_segment] converts a score only when a guard needs it.  A
    missing recency score always raises; with recency score 3 the other two
    scores are never read and the segment is Others; with any other recency
    score a missing frequency score raises; and a missing monetary score
    raises exactly when recency and frequency are both at least 4. *)
Theorem segment_reads_what_it_needs (row : ScoredRow) :
  (R_Score row = None → rfm_segment row = Raise CannotConvertNaN)
  ∧ (R_Score row = Some 3 → rfm_segment row = Ok "Others"%string)
  ∧ (∀ r, R_Score row = Some r → r ≠ 3 → F_Score row = None →
       rfm_segment row = Raise CannotConvertNaN)
  ∧ (∀ r f, R_Score row = Some r → F_Score row = Some f → M_Score row = None →
       (r >= 4 ∧ f >= 4 → rfm_segment row = Raise CannotConvertNaN)
       ∧ (¬ (r >= 4 ∧ f >= 4) → ∃ label, rfm_segment row = Ok label)).
Proof.
  unfold rfm_segment, and_then, at_least, at_most, int.
  split; [by intros ->|]. split; [by intros ->|]. split.
  - intros r -> Hr ->. simpl. repeat case_bool_decide; simpl; try done; lia.
  - intros r f -> -> ->. simpl. split.
    + intros [? ?]. repeat case_bool_decide; simpl; try done; lia.
    + intros Hnot. repeat case_bool_decide; simpl; eauto; lia.
Qed.

(** ** The sidebar filters *)

Section filters.
Context {A : Type} `{EqDecision A}.
Implicit Types (seen x : list A) (v : A).

Lemma unique_from_elem seen x v : v ∈ unique_from seen x ↔ v ∈ x ∧ v ∉ seen.
Proof.
  revert seen. induction x as [|w x IH]; intros seen; simpl.
  - rewrite elem_of_nil. tauto.
  - case_decide as Hw.
    + rewrite IH, elem_of_cons. split; [tauto|].
      intros [[->|Hv] Hseen]; [done|tauto].
    + rewrite !elem_of_cons, IH, elem_of_cons. split.
      * intros [->|[Hv Hseen]]; [tauto|]. tauto.
      * intros [[->|Hv] Hseen]; [tauto|].
        destruct (decide (v = w)) as [->|Hne]; [tauto|]. right. tauto.
Qed.

Lemma unique_elem x v : v ∈ unique x ↔ v ∈ x.
Proof.
  unfold unique. rewrite unique_from_elem, elem_of_nil. tauto.
Qed.

Lemma unique_from_NoDup seen x : NoDup (unique_from seen x).
Proof.
  revert seen. induction x as [|w x IH]; intros seen; simpl; [constructor|].
  case_decide; [apply IH|]. constructor; [|apply IH].
  rewrite unique_from_elem, elem_of_cons. tauto.
Qed.

Lemma filter_all (P : A → Prop) `{!∀ a, Decision (P a)} (l : list A) :
  (∀ a, a ∈ l → P a) → filter P l = l.
Proof.
  induction l as [|a l IH]; intros Hall; [done|].
  rewrite filter_cons_True by apply Hall, list_elem_of_here.
  f_equal. apply IH. intros b Hb. by apply Hall, list_elem_of_further.
Qed.

Lemma filter_none (P : A → Prop) `{!∀ a, Decision (P a)} (l : list A) :
  (∀ a, a ∈ l → ¬ P a) → filter P l = [].
Proof.
  induction l as [|a l IH]; intros Hall; [done|].
  rewrite filter_cons_False by apply Hall, list_elem_of_here.
  apply IH. intros b Hb. by apply Hall, list_elem_of_further.
Qed.
End filters.

(** X15.  The options the sidebar offers are the distinct values of the
    column, each once; with every option selected (the default) and a date
    range that spans the dates of the frame, the filters keep every row. *)
Theorem default_selection_keeps_all (has_product : bool) (df : list SalesRow)
    (date_range : Z * Z) :
  (∀ r, r ∈ df → date_range.1 ≤ Invoice_Date (core r) ≤ date_range.2) →
  NoDup (unique (Country <$> df))
  ∧ (∀ c, c ∈ unique (Country <$> df) ↔ c ∈ Country <$> df)
  ∧ apply_filters has_product (unique (Country <$> df))
      (if has_product then unique (Product <$> df) else []) date_range df = df.
Proof.
  intros Hdates. split; [apply unique_from_NoDup|].
  split; [intros c; apply unique_elem|].
  apply filter_all. intros r Hr. unfold in_selection.
  split; [by apply unique_elem, list_elem_of_fmap_2|].
  split; [|by apply Hdates].
  destruct has_product; [|done]. by apply unique_elem, list_elem_of_fmap_2.
Qed.

Lemma default_selection_keeps_all_witness :
  NoDup (unique (Country <$> sample_sales))
  ∧ (∀ c, c ∈ unique (Country <$> sample_sales) ↔ c ∈ Country <$> sample_sales)
  ∧ apply_filters true (unique (Country <$> sample_sales))
      (unique (Product <$> sample_sales)) (10 * one_day, 14 * one_day) sample_sales
    = sample_sales.
Proof.
  apply (default_selection_keeps_all true sample_sales (10 * one_day, 14 * one_day)).
  intros r Hr. unfold sample_sales in Hr.
  repeat (apply elem_of_cons in Hr as [->|Hr]; [vm_compute; split; discriminate|]).
  by apply elem_of_nil in Hr.
Defined.

(** X16.  The filters only take rows away: the rows kept are rows of the
    frame in frame order, so the filtered order count and customer count
    (hence the number of RFM lines) never exceed the unfiltered ones. *)
Theorem filters_only_narrow (has_product : bool) (countries products : list (option string))
    (date_range : Z * Z) (df : list SalesRow) :
  apply_filters has_product countries products date_range df `sublist_of` df
  ∧ total_orders (core <$> apply_filters has_product countries products date_range df)
    ≤ total_orders (core <$> df)
  ∧ total_customers (core <$> apply_filters has_product countries products date_range df)
    ≤ total_customers (core <$> df)
  ∧ (length (rfm_table (core <$> apply_filters has_product countries products date_range df))
     ≤ length (rfm_table (core <$> df)))%nat.
Proof.
  assert (∀ (f : Row → Z) v,
            v ∈ f <$> (core <$> apply_filters has_product countries products date_range df)
            → v ∈ f <$> (core <$> df)) as Hsub.
  { intros f v Hv. rewrite <- list_fmap_compose in *.
    apply list_elem_of_fmap in Hv as (r & -> & Hr).
    apply list_elem_of_filter in Hr as [_ Hr]. by apply list_elem_of_fmap_2. }
  split; [apply sublist_filter|].
  split; [apply nunique_subset, Hsub|].
  assert (total_customers (core <$> apply_filters has_product countries products date_range df)
          ≤ total_customers (core <$> df)) as Hle by apply nunique_subset, Hsub.
  split; [done|].
  pose proof (lines_of_customers_count
                (core <$> apply_filters has_product countries products date_range df)).
  pose proof (lines_of_customers_count (core <$> df)). lia.
Qed.

(** X17.  With no country selected, with a product column and no product
    selected, or with a date range whose end lies before its start, no row
    is left: the KPIs are 0, both charts are empty, and the RFM block
    raises the exception of [pd.qcut]. *)
Theorem empty_selection_breaks_rfm (has_product : bool)
    (countries products : list (option string)) (date_range : Z * Z) (df : list SalesRow) :
  countries = [] ∨ (has_product = true ∧ products = []) ∨ date_range.2 < date_range.1 →
  apply_filters has_product countries products date_range df = []
  ∧ total_sales (core <$> apply_filters has_product countries products date_range df) = 0
  ∧ avg_order_value (core <$> apply_filters has_product countries products date_range df)
    = 0%Qc
  ∧ sales_time (core <$> apply_filters has_product countries products date_range df) = []
  ∧ country_sales (apply_filters has_product countries products date_range df) = []
  ∧ rfm_analysis (core <$> apply_filters has_product countries products date_range df)
    = Raise BinEdgesNotUnique.
Proof.
  intros Hsel.
  assert (apply_filters has_product countries products date_range df = []) as ->.
  { apply filter_none. intros r _ (Hc & Hp & Hlo & Hhi).
    destruct Hsel as [->|[[-> ->]|Hrange]].
    - by apply elem_of_nil in Hc.
    - by apply elem_of_nil in Hp.
    - lia. }
  repeat split; vm_compute; reflexivity.
Qed.

Lemma empty_selection_breaks_rfm_witness :
  apply_filters true [] [Some "Mug"] (0, 1) sample_sales = []
  ∧ total_sales (core <$> apply_filters true [] [Some "Mug"] (0, 1) sample_sales) = 0
  ∧ avg_order_value (core <$> apply_filters true [] [Some "Mug"] (0, 1) sample_sales)
    = 0%Qc
  ∧ sales_time (core <$> apply_filters true [] [Some "Mug"] (0, 1) sample_sales) = []
  ∧ country_sales (apply_filters true [] [Some "Mug"] (0, 1) sample_sales) = []
  ∧ rfm_analysis (core <$> apply_filters true [] [Some "Mug"] (0, 1) sample_sales)
    = Raise BinEdgesNotUnique.
Proof. apply empty_selection_breaks_rfm. by left. Defined.

(** ** The revenue rankings *)

Lemma key_before_trans k1 k2 k3 : key_before k1 k2 → key_before k2 k3 → key_before k1 k3.
Proof.
  unfold key_before. rewrite !OrderedTypeEx.String_as_OT.cmp_lt.
  apply OrderedTypeEx.String_as_OT.lt_trans.
Qed.

Lemma key_before_irrefl k : ¬ key_before k k.
Proof.
  unfold key_before. intros Hlt.
  assert ((k ?= k)%string = Eq) as Heq
    by (by apply OrderedTypeEx.String_as_OT.cmp_eq).
  congruence.
Qed.

Lemma key_before_flip k k' : (k ?= k')%string = Gt → key_before k' k.
Proof.
  unfold key_before. intros Hgt.
  rewrite String.compare_antisym, Hgt. done.
Qed.

Section rankings.
Variable column : SalesRow → option string.
Implicit Types (df : list SalesRow) (k : string) (r : SalesRow)
  (groups : list (string * list Z)).

Lemma add_amount_keys k a groups k' :
  k' ∈ (add_amount k a groups).*1 ↔ k' = k ∨ k' ∈ groups.*1.
Proof.
  induction groups as [|g groups IH]; simpl.
  - rewrite list_elem_of_singleton, elem_of_nil. tauto.
  - destruct (k ?= g.1)%string eqn:Hcmp; simpl; rewrite !elem_of_cons.
    + apply String.compare_eq_iff in Hcmp. intuition congruence.
    + simpl. tauto.
    + rewrite IH. tauto.
Qed.

Lemma add_amount_sorted k a groups :
  StronglySorted key_before groups.*1 →
  StronglySorted key_before (add_amount k a groups).*1.
Proof.
  induction groups as [|g groups IH]; simpl; intros Hs.
  - repeat constructor.
  - apply StronglySorted_inv in Hs as [Hs Hg].
    destruct (k ?= g.1)%string eqn:Hcmp; simpl.
    + by constructor.
    + constructor; [by constructor|].
      constructor; [done|].
      eapply Forall_impl; [exact Hg|]. simpl. intros k'. by apply key_before_trans.
    + constructor; [by apply IH|].
      apply Forall_forall. intros k' Hk'.
      apply add_amount_keys in Hk' as [->|Hk']; [by apply key_before_flip|].
      by eapply Forall_forall in Hg.
Qed.

Lemma add_amount_amounts_at k a groups k' :
  amounts_at k' (add_amount k a groups)
  = (if decide (k = k') then [a] else []) ++ amounts_at k' groups.
Proof.
  induction groups as [|g groups IH]; simpl.
  - by repeat case_decide.
  - destruct (k ?= g.1)%string eqn:Hcmp; simpl.
    + apply String.compare_eq_iff in Hcmp. repeat case_decide; simpl; congruence.
    + by repeat case_decide.
    + rewrite IH. destruct (decide (k = k')) as [->|Hne]; [|done].
      rewrite decide_False; [done|]. intros Heq. rewrite Heq in Hcmp.
      assert ((k' ?= k')%string = Eq) as Hrefl
        by (by apply OrderedTypeEx.String_as_OT.cmp_eq).
      congruence.
Qed.

Lemma groupby_column_keys df k :
  k ∈ (groupby_column column df).*1 ↔ Some k ∈ column <$> df.
Proof.
  induction df as [|r df IH]; simpl; [by rewrite !elem_of_nil|].
  rewrite elem_of_cons. destruct (column r) as [k'|].
  - rewrite add_amount_keys, IH. split; intros [?|?]; try tauto; left; congruence.
  - rewrite IH. split; [tauto|]. by intros [?|?].
Qed.

Lemma groupby_column_sorted df : StronglySorted key_before (groupby_column column df).*1.
Proof.
  induction df as [|r df IH]; simpl; [constructor|].
  destruct (column r); [by apply add_amount_sorted|done].
Qed.

Lemma key_sorted_NoDup (l : list string) : StronglySorted key_before l → NoDup l.
Proof.
  induction 1 as [|k l _ IH Hk]; constructor; [|done].
  intros Hin. eapply Forall_forall in Hk; [|done]. by apply key_before_irrefl in Hk.
Qed.

Lemma groupby_column_NoDup df : NoDup (groupby_column column df).*1.
Proof. apply key_sorted_NoDup, groupby_column_sorted. Qed.

Lemma groupby_column_amounts_at df k :
  amounts_at k (groupby_column column df)
  = (Amount ∘ core) <$> filter (λ r, column r = Some k) df.
Proof.
  induction df as [|r df IH]; simpl; [done|].
  rewrite filter_cons. destruct (column r) as [k'|] eqn:Hc.
  - rewrite add_amount_amounts_at, IH.
    destruct (decide (k' = k)) as [->|Hne].
    + by rewrite decide_True by done.
    + by rewrite decide_False by congruence.
  - rewrite IH. by rewrite decide_False.
Qed.

Lemma amounts_at_absent groups k : k ∉ groups.*1 → amounts_at k groups = [].
Proof.
  induction groups as [|g groups IH]; simpl; [done|].
  rewrite not_elem_of_cons. intros [Hne Hk].
  case_decide; [congruence|]. by apply IH.
Qed.

Lemma amounts_at_group groups g :
  NoDup groups.*1 → g ∈ groups → amounts_at g.1 groups = g.2.
Proof.
  induction groups as [|g' groups IH]; simpl; intros Hnd Hg;
    [by apply elem_of_nil in Hg|].
  apply NoDup_cons in Hnd as [Hnew Hnd].
  apply elem_of_cons in Hg as [->|Hg].
  - rewrite decide_True by done. rewrite amounts_at_absent by done. apply app_nil_r.
  - rewrite decide_False; [by apply IH|].
    intros Heq. apply Hnew. rewrite Heq. by apply list_elem_of_fmap_2.
Qed.

(** The total listed for a value is the revenue of its rows, and only
    values with rows are listed. *)
Lemma group_totals_elem df k t :
  (k, t) ∈ group_totals column df
  ↔ Some k ∈ column <$> df ∧ t = revenue_of column k df.
Proof.
  unfold group_totals, revenue_of. rewrite list_elem_of_fmap. split.
  - intros (g & [= -> ->] & Hg). split.
    + apply groupby_column_keys. by apply list_elem_of_fmap_2.
    + rewrite <- groupby_column_amounts_at.
      by rewrite amounts_at_group by (done || apply groupby_column_NoDup).
  - intros [Hk ->].
    apply groupby_column_keys, list_elem_of_fmap in Hk as (g & -> & Hg).
    exists g. split; [|done]. f_equal.
    rewrite <- groupby_column_amounts_at.
    by rewrite amounts_at_group by (done || apply groupby_column_NoDup).
Qed.

Lemma group_totals_keys df : (group_totals column df).*1 = (groupby_column column df).*1.
Proof. unfold group_totals. rewrite <- list_fmap_compose. by apply list_fmap_ext. Qed.

Lemma put_in_order_Permutation a (l : list (string * Z)) : put_in_order a l ≡ₚ a :: l.
Proof.
  induction l as [|b l IH]; simpl; [done|].
  case_decide; [done|]. rewrite IH. apply Permutation_swap.
Qed.

Lemma sort_values_Permutation (l : list (string * Z)) : sort_values l ≡ₚ l.
Proof.
  induction l as [|a l IH]; simpl; [done|].
  by rewrite put_in_order_Permutation, IH.
Qed.

Lemma put_in_order_sorted a (l : list (string * Z)) :
  StronglySorted larger_first l → StronglySorted larger_first (put_in_order a l).
Proof.
  induction 1 as [|b l Hs IH Hb]; simpl; [repeat constructor|].
  case_decide as Hle.
  - constructor; [by constructor|].
    constructor; [done|].
    eapply Forall_impl; [exact Hb|]. unfold larger_first. simpl. intros; lia.
  - constructor; [done|].
    apply Forall_forall. intros c Hc. rewrite put_in_order_Permutation in Hc.
    apply elem_of_cons in Hc as [->|Hc]; [unfold larger_first; lia|].
    by eapply Forall_forall in Hb.
Qed.

Lemma sort_values_sorted (l : list (string * Z)) :
  StronglySorted larger_first (sort_values l).
Proof.
  induction l as [|a l IH]; simpl; [constructor|by apply put_in_order_sorted].
Qed.

Lemma top10_sublist df : top10 column df `sublist_of` sort_values (group_totals column df).
Proof. apply sublist_take. Qed.

Lemma top10_elem df k t :
  (k, t) ∈ top10 column df → Some k ∈ column <$> df ∧ t = revenue_of column k df.
Proof.
  intros Hin. apply group_totals_elem.
  rewrite <- sort_values_Permutation.
  eapply elem_of_sublist; [exact Hin|apply top10_sublist].
Qed.
End rankings.

(** X20.  Every bar of a revenue ranking stands for a value that occurs in
    the column and shows the sum of the amounts of exactly the rows with
    that value, in frame order (rows without a value are in no bar); no
    value has two bars. *)
Theorem ranking_lines_are_totals (column : SalesRow → option string) (df : list SalesRow) :
  NoDup (top10 column df).*1
  ∧ ∀ k t, (k, t) ∈ top10 column df →
      Some k ∈ column <$> df ∧ t = revenue_of column k df.
Proof.
  split; [|apply top10_elem].
  eapply sublist_NoDup; [|apply fmap_sublist, top10_sublist].
  rewrite (sort_values_Permutation (group_totals column df)), group_totals_keys.
  apply groupby_column_NoDup.
Qed.

(** X21.  A revenue ranking has at most ten bars, in order of falling
    revenue; a value that occurs in the column and has no bar was left out
    of a full ranking, and its revenue is at most that of every bar. *)
Theorem ranking_shows_the_largest (column : SalesRow → option string)
    (df : list SalesRow) :
  (length (top10 column df) ≤ 10)%nat
  ∧ StronglySorted larger_first (top10 column df)
  ∧ ∀ k, Some k ∈ column <$> df → k ∉ (top10 column df).*1 →
      length (top10 column df) = 10%nat
      ∧ ∀ line, line ∈ top10 column df → revenue_of column k df ≤ line.2.
Proof.
  pose proof (sort_values_sorted (group_totals column df)) as Hsorted.
  rewrite <- (take_drop 10 (sort_values _)) in Hsorted.
  fold (top10 column df) in Hsorted.
  split; [apply firstn_le_length|].
  split; [by apply StronglySorted_app in Hsorted as (_ & ? & _)|].
  intros k Hk Hout.
  assert ((k, revenue_of column k df) ∈ drop 10 (sort_values (group_totals column df)))
    as Hdrop.
  { assert ((k, revenue_of column k df) ∈ sort_values (group_totals column df)) as Hin.
    { rewrite sort_values_Permutation. by apply group_totals_elem. }
    rewrite <- (take_drop 10 (sort_values _)) in Hin.
    apply elem_of_app in Hin as [Hin|Hin]; [|done].
    exfalso. apply Hout. by apply (list_elem_of_fmap_2 fst) in Hin. }
  split.
  - unfold top10. rewrite length_take.
    destruct (decide (length (sort_values (group_totals column df)) ≤ 10)%nat)
      as [Hle|Hgt]; [|lia].
    rewrite drop_ge in Hdrop by done. by apply elem_of_nil in Hdrop.
  - intros line Hline.
    apply (StronglySorted_app_1_elem_of _ _ _ _ _ Hsorted Hline Hdrop).
Qed.

Lemma ranking_shows_the_largest_witness :
  length (top10 Country twelve_countries) = 10%nat
  ∧ ∀ line, line ∈ top10 Country twelve_countries →
      revenue_of Country "AT" twelve_countries ≤ line.2.
Proof.
  destruct (ranking_shows_the_largest Country twelve_countries) as (_ & _ & Hleft).
  apply Hleft.
  - apply (bool_decide_unpack _). vm_compute. exact I.
  - apply (bool_decide_unpack _). vm_compute. exact I.
Defined.

(** Equal totals are listed in the order of their keys. *)
Example tied_countries_ranking :
  country_sales tied_countries
  = [("Italy", 50); ("AT", 30); ("France", 30); ("Spain", 30); ("UK", 30)].
Proof. vm_compute. reflexivity. Qed.

(** ** The table preview *)

Lemma rfm_scores_aggregates (rfm : list RfmRow) (out : list SegmentedRow) :
  rfm_scores rfm = Ok out → (aggregate ∘ scored) <$> out = rfm.
Proof.
  intros Hout.
  pose proof (rfm_scores_Ok_inv _ _ Hout) as (_ & Hrows & _).
  rewrite list_fmap_compose, Hrows, fmap_imap.
  change (λ n : nat, aggregate ∘ score_row rfm n) with (@const (RfmRow → RfmRow) nat id).
  rewrite imap_const. apply list_fmap_id.
Qed.

Lemma rfm_preview_ids (df : list Row) (out : list SegmentedRow) :
  rfm_analysis df = Ok out →
  (rfm_preview out).*1.*1 = take 20 (key <$> groupby df).
Proof.
  intros Hout. unfold rfm_analysis in Hout.
  apply rfm_scores_aggregates in Hout.
  rewrite <- rfm_table_keys, <- Hout. unfold rfm_preview.
  rewrite <- !list_fmap_compose, <- fmap_take. done.
Qed.

(** X23.  When the RFM block succeeds, the table preview lists customers in
    ascending order of their id, at most twenty of them; a customer of the
    selection who is not listed was cut off a full preview and has a larger
    id than everyone listed. *)
Theorem preview_shows_smallest_ids (df : list Row) (out : list SegmentedRow) :
  rfm_analysis df = Ok out →
  (rfm_preview out).*1.*1 = take 20 (rfm_Customer_ID <$> rfm_table df)
  ∧ (length (rfm_preview out) ≤ 20)%nat
  ∧ StronglySorted Z.lt (rfm_preview out).*1.*1
  ∧ ∀ c, c ∈ Customer_ID <$> df → c ∉ (rfm_preview out).*1.*1 →
      length (rfm_preview out) = 20%nat
      ∧ ∀ c', c' ∈ (rfm_preview out).*1.*1 → c' < c.
Proof.
  intros Hout. rewrite (rfm_preview_ids _ _ Hout), rfm_table_keys.
  pose proof (groupby_sorted df) as Hsorted.
  rewrite <- (take_drop 20 (key <$> groupby df)) in Hsorted.
  assert (length (rfm_preview out) = length (take 20 (key <$> groupby df))) as Hlen.
  { by rewrite <- (rfm_preview_ids _ _ Hout), !length_fmap. }
  rewrite Hlen.
  split; [done|]. split; [apply firstn_le_length|].
  split; [by apply StronglySorted_app in Hsorted as (_ & ? & _)|].
  intros c Hc Hout'.
  assert (c ∈ drop 20 (key <$> groupby df)) as Hdrop.
  { apply groupby_keys in Hc. rewrite <- (take_drop 20 (key <$> groupby df)) in Hc.
    by apply elem_of_app in Hc as [Hc|Hc]. }
  split.
  - rewrite length_take.
    destruct (decide (length (key <$> groupby df) ≤ 20)%nat) as [Hle|Hgt]; [|lia].
    rewrite drop_ge in Hdrop by done. by apply elem_of_nil in Hdrop.
  - intros c' Hc'. apply (StronglySorted_app_1_elem_of _ _ _ _ _ Hsorted Hc' Hdrop).
Qed.

Lemma preview_shows_smallest_ids_witness :
  (rfm_preview sample_scored).*1.*1
  = take 20 (rfm_Customer_ID <$> rfm_table (core <$> sample_sales))
  ∧ (length (rfm_preview sample_scored) ≤ 20)%nat
  ∧ StronglySorted Z.lt (rfm_preview sample_scored).*1.*1
  ∧ ∀ c, c ∈ Customer_ID <$> (core <$> sample_sales) →
      c ∉ (rfm_preview sample_scored).*1.*1 →
      length (rfm_preview sample_scored) = 20%nat
      ∧ ∀ c', c' ∈ (rfm_preview sample_scored).*1.*1 → c' < c.
Proof. apply preview_shows_smallest_ids. vm_compute. reflexivity. Defined.
